(** * RoomAssignment: a Monte Carlo search for a room assignment

    A shallow embedding of [src/source/main.cpp] and the proofs of the
    properties the specification states about it.

    - [int] is a 32-bit two's complement integer, modelled as a [Z] with
      the wrap-around of each arithmetic operation written out
      ([wrap_int]);
    - [std::vector<T>] is a [list T]; [operator[]] does not check its
      index, so each access is an [option] and an access outside the
      vector is [None];
    - the two globals [globalBestFitness] and [globalBestAssignment] are
      the two fields of a [Register], passed explicitly;
    - the random source of a worker is an oracle [nat -> Z] giving the
      value of the k-th call of [roomDist(rng)];
    - the workers only meet inside the critical section guarded by
      [bestSolutionMutex], so a concurrent run is a sequence of whole
      iterations, one worker at a time ([runSchedule]). *)

From stdpp Require Import base tactics numbers option list.

Local Open Scope Z_scope.

(** ** Machine integers *)

Definition INT_MAX : Z := 2147483647.
Definition INT_MIN : Z := -2147483648.

(** The value an [int] computation yields for the exact result [z]. *)
Definition wrap_int (z : Z) : Z := (z + 2147483648) mod 4294967296 - 2147483648.

Definition is_int (z : Z) : Prop := INT_MIN ≤ z ≤ INT_MAX.

(** [static_cast<int>(v.size())] *)
Definition static_cast_int (n : nat) : Z := wrap_int (Z.of_nat n).

(** ** Data structures *)

Record Room := { capacity : Z }.

Record Incompatibility := { student1 : Z; student2 : Z }.

(** [v[i]] for an [int] index [i]: the index is converted to [size_t], so
    a negative one lands beyond the end of any vector. *)
Definition at_int {A} (v : list A) (i : Z) : option A :=
  if bool_decide (i < 0) then None else v !! Z.to_nat i.

(** [v[i] = x] for an [int] index [i]. *)
Definition set_int {A} (v : list A) (i : Z) (x : A) : option (list A) :=
  if bool_decide (0 ≤ i < Z.of_nat (length v)) then Some (<[Z.to_nat i := x]> v)
  else None.

(** ** The evaluation function *)

(** [for (int room : assignment) if (room >= 0 && room < (int)roomUsage.size()) roomUsage[room]++;] *)
Fixpoint countRooms (assignment : list Z) (roomUsage : list Z) : option (list Z) :=
  match assignment with
  | [] => Some roomUsage
  | room :: rest =>
      if bool_decide (0 ≤ room) && bool_decide (room < static_cast_int (length roomUsage))
      then u ← at_int roomUsage room;
           roomUsage' ← set_int roomUsage room (wrap_int (u + 1));
           countRooms rest roomUsage'
      else countRooms rest roomUsage
  end.

(** The body of the capacity loop at index [i]. *)
Definition capacityStep (rooms : list Room) (roomUsage : list Z)
    (penalty : Z) (i : nat) : option Z :=
  u ← roomUsage !! i;
  r ← rooms !! i;
  Some (if bool_decide (capacity r < u)
        then wrap_int (penalty + wrap_int (wrap_int (u - capacity r) * 10))
        else penalty).

(** [for (size_t i = 0; i < rooms.size(); i++) ...], over the indices still
    to visit. *)
Fixpoint capacityLoop (rooms : list Room) (roomUsage : list Z)
    (indices : list nat) (penalty : Z) : option Z :=
  match indices with
  | [] => Some penalty
  | i :: rest =>
      penalty' ← capacityStep rooms roomUsage penalty i;
      capacityLoop rooms roomUsage rest penalty'
  end.

(** [for (const auto& inc : incompatibilities) if (assignment[inc.student1] == assignment[inc.student2]) penalty += 5;] *)
Fixpoint incompatLoop (assignment : list Z) (incompatibilities : list Incompatibility)
    (penalty : Z) : option Z :=
  match incompatibilities with
  | [] => Some penalty
  | inc :: rest =>
      r1 ← at_int assignment (student1 inc);
      r2 ← at_int assignment (student2 inc);
      incompatLoop assignment rest
        (if bool_decide (r1 = r2) then wrap_int (penalty + 5) else penalty)
  end.

Definition evaluateSolution (assignment : list Z) (rooms : list Room)
    (incompatibilities : list Incompatibility) : option Z :=
  roomUsage ← countRooms assignment (replicate (length rooms) 0);
  penalty ← capacityLoop rooms roomUsage (seq 0 (length rooms)) 0;
  incompatLoop assignment incompatibilities penalty.

(** ** The shared register and the workers *)

Record Register := {
  globalBestFitness : Z;
  globalBestAssignment : list Z
}.

Definition initialRegister : Register :=
  {| globalBestFitness := INT_MAX; globalBestAssignment := [] |}.

(** The block guarded by [bestSolutionMutex]. *)
Definition criticalSection (fitness : Z) (currentAssignment : list Z)
    (g : Register) : Register :=
  if bool_decide (fitness < globalBestFitness g)
  then {| globalBestFitness := fitness; globalBestAssignment := currentAssignment |}
  else g.

(** A sequence of update attempts, oldest first. *)
Definition attempts (updates : list (Z * list Z)) (g : Register) : Register :=
  foldl (λ g u, criticalSection u.1 u.2 g) g updates.

(** The locals of one running [monteCarloThread]: its random source (the
    value of each call of [roomDist(rng)]), the number of calls made, the
    buffer [currentAssignment] and the iterations still to run. *)
Record Worker := {
  rng : nat → Z;
  calls : nat;
  currentAssignment : list Z;
  todo : nat
}.

(** [roomDist(0, rooms.size() - 1)]: the upper bound as the [int] the
    distribution receives. *)
Definition roomDistMax (rooms : list Room) : Z :=
  wrap_int (Z.of_nat (length rooms) - 1).

(** The locals at the start of the thread.  The distribution requires
    [0 <= rooms.size() - 1] and the buffer a size that is not negative. *)
Definition newWorker (iterations : Z) (rooms : list Room) (numStudents : Z)
    (draw : nat → Z) : option Worker :=
  if bool_decide (0 ≤ roomDistMax rooms) && bool_decide (0 ≤ numStudents)
  then Some {| rng := draw; calls := 0;
               currentAssignment := replicate (Z.to_nat numStudents) 0;
               todo := Z.to_nat iterations |}
  else None.

(** The values of [j] in [for (int j = 0; j < numStudents; j++)]. *)
Definition studentIndices (numStudents : Z) : list Z :=
  Z.of_nat <$> seq 0 (Z.to_nat numStudents).

(** [currentAssignment[j] = roomDist(rng)] for each [j]. *)
Fixpoint generate (draw : nat → Z) (calls : nat) (js : list Z)
    (current : list Z) : option (nat * list Z) :=
  match js with
  | [] => Some (calls, current)
  | j :: rest =>
      current' ← set_int current j (draw calls);
      generate draw (S calls) rest current'
  end.

(** One iteration of the outer loop of [monteCarloThread]. *)
Definition iteration (rooms : list Room) (incompatibilities : list Incompatibility)
    (numStudents : Z) (w : Worker) (g : Register) : option (Worker * Register) :=
  '(calls', current) ← generate (rng w) (calls w) (studentIndices numStudents)
                         (currentAssignment w);
  fitness ← evaluateSolution current rooms incompatibilities;
  Some ({| rng := rng w; calls := calls'; currentAssignment := current;
           todo := pred (todo w) |},
        criticalSection fitness current g).

(** [n] iterations in a row. *)
Fixpoint iterate (rooms : list Room) (incompatibilities : list Incompatibility)
    (numStudents : Z) (n : nat) (w : Worker) (g : Register)
    : option (Worker * Register) :=
  match n with
  | O => Some (w, g)
  | S n' =>
      '(w', g') ← iteration rooms incompatibilities numStudents w g;
      iterate rooms incompatibilities numStudents n' w' g'
  end.

(** A thread that runs alone from start to end. *)
Definition monteCarloThread (iterations : Z) (rooms : list Room)
    (incompatibilities : list Incompatibility) (numStudents : Z)
    (draw : nat → Z) (g : Register) : option Register :=
  w ← newWorker iterations rooms numStudents draw;
  snd <$> iterate rooms incompatibilities numStudents (todo w) w g.

(** *** Several workers

    The state of a run: the locals of each thread and the register. *)
Definition System : Type := list Worker * Register.

(** Thread [t] runs its next iteration, if it has one left. *)
Definition stepWorker (rooms : list Room) (incompatibilities : list Incompatibility)
    (numStudents : Z) (t : nat) (s : System) : option System :=
  match s.1 !! t with
  | Some w =>
      match todo w with
      | O => Some s
      | S _ =>
          '(w', g') ← iteration rooms incompatibilities numStudents w s.2;
          Some (<[t := w']> s.1, g')
      end
  | None => Some s
  end.

(** The iterations in the order in which they enter the critical section. *)
Fixpoint runSchedule (rooms : list Room) (incompatibilities : list Incompatibility)
    (numStudents : Z) (schedule : list nat) (s : System) : option System :=
  match schedule with
  | [] => Some s
  | t :: rest =>
      s' ← stepWorker rooms incompatibilities numStudents t s;
      runSchedule rooms incompatibilities numStudents rest s'
  end.

(** The iterations all threads still have to run. *)
Definition pending (ws : list Worker) : nat := sum_list (todo <$> ws).

(** [t.join()] for each thread: whatever a thread has left to do is done
    by the time its join returns. *)
Definition joinAll (rooms : list Room) (incompatibilities : list Incompatibility)
    (numStudents : Z) (s : System) : option System :=
  runSchedule rooms incompatibilities numStudents
    (flat_map (λ t, replicate (from_option todo O (s.1 !! t)) t) (seq 0 (length s.1))) s.

(** ** The penalty in the words of the specification *)

Definition sumZ (l : list Z) : Z := foldr Z.add 0 l.

(** The number of entries of the assignment equal to the room index [i]. *)
Definition occupancy (assignment : list Z) (i : nat) : Z :=
  Z.of_nat (length (filter (λ room, room = Z.of_nat i) assignment)).

Definition overflowPenalty (occ cap : Z) : Z :=
  if bool_decide (cap < occ) then (occ - cap) * 10 else 0.

Definition roomPenalty (assignment : list Z) (rooms : list Room) (i : nat) : Z :=
  from_option (λ r, overflowPenalty (occupancy assignment i) (capacity r)) 0 (rooms !! i).

(** Both students of the pair have a room, and it is the same one. *)
Definition sameRoom (assignment : list Z) (inc : Incompatibility) : bool :=
  match at_int assignment (student1 inc), at_int assignment (student2 inc) with
  | Some r1, Some r2 => bool_decide (r1 = r2)
  | _, _ => false
  end.

Definition incompatPenalty (assignment : list Z) (inc : Incompatibility) : Z :=
  if sameRoom assignment inc then 5 else 0.

Definition specPenalty (assignment : list Z) (rooms : list Room)
    (incompatibilities : list Incompatibility) : Z :=
  sumZ (roomPenalty assignment rooms <$> seq 0 (length rooms))
  + sumZ (incompatPenalty assignment <$> incompatibilities).

(** Both student indices of the pair lie inside the assignment. *)
Definition inRange (assignment : list Z) (inc : Incompatibility) : Prop :=
  (0 ≤ student1 inc < Z.of_nat (length assignment))
  ∧ (0 ≤ student2 inc < Z.of_nat (length assignment)).

#[local] Instance inRange_dec assignment inc : Decision (inRange assignment inc).
Proof. unfold inRange. apply _. Defined.

(** Every entry of the assignment is the index of a room. *)
Definition validAssignment (assignment : list Z) (rooms : list Room) : Prop :=
  Forall (λ room, 0 ≤ room < Z.of_nat (length rooms)) assignment.

(** ** What the loops of [evaluateSolution] compute *)

(** The content of [roomUsage[i]] after the counting loop. *)
Definition usageAt (n : nat) (assignment : list Z) (i : nat) : Z :=
  if bool_decide (Z.of_nat i < static_cast_int n)
  then wrap_int (occupancy assignment i) else 0.

(** What the capacity loop adds for room [i], given the usage it reads. *)
Definition codeTerm (rooms : list Room) (usage : nat → Z) (i : nat) : Z :=
  from_option
    (λ r, if bool_decide (capacity r < usage i)
          then wrap_int (wrap_int (usage i - capacity r) * 10) else 0)
    0 (rooms !! i).

Definition codePenalty (assignment : list Z) (rooms : list Room) : Z :=
  sumZ (codeTerm rooms (usageAt (length rooms) assignment) <$> seq 0 (length rooms)).

(** ** The entry point *)

(** What [main] prints: a room for each student, the best fitness and
    the thread count (the elapsed time is left out). *)
Record Report := {
  studentRooms : list (Z * Z);
  bestFitness : Z;
  threadCountUsed : Z
}.

(** How the process ends: [return status] after the report, or undefined
    behaviour on the way. *)
Inductive Outcome :=
  | Exit (status : Z) (report : Report)
  | Undefined.

Definition numRooms : Z := 10.
Definition numStudents : Z := 100.
Definition iterationsPerThread : Z := 100000.

(** [std::vector<Room> rooms(numRooms, Room{10})] *)
Definition mainRooms : list Room := replicate (Z.to_nat numRooms) {| capacity := 10 |}.

(** [for (int i = 0; i < numStudents - 1; i += 3) push_back({i, i+1})] *)
Definition mainIncompatibilities : list Incompatibility :=
  (λ k, {| student1 := 3 * Z.of_nat k; student2 := 3 * Z.of_nat k + 1 |})
    <$> seq 0 (Z.to_nat ((numStudents - 1 + 2) / 3)).

(** [threadCount]: 4, or [atoi(argv[1])] where there is an argument;
    [argv1] is that value of [atoi]. *)
Definition threadCountOf (argv1 : option Z) : Z := default 4 argv1.

(** The threads [for (int t = 0; t < threadCount; t++)] starts, thread [t]
    drawing from [rngs t]. *)
Definition spawn (iterations : Z) (rooms : list Room) (numStudents : Z)
    (threadCount : Z) (rngs : nat → nat → Z) : option (list Worker) :=
  mapM (λ t, newWorker iterations rooms numStudents (rngs t))
       (seq 0 (Z.to_nat threadCount)).

(** From the first [emplace_back] to the last [join]: the iterations of
    [schedule] first, then what is left of each thread. *)
Definition runThreads (rooms : list Room) (incompatibilities : list Incompatibility)
    (numStudents iterations threadCount : Z) (rngs : nat → nat → Z)
    (schedule : list nat) : option System :=
  ws ← spawn iterations rooms numStudents threadCount rngs;
  s ← runSchedule rooms incompatibilities numStudents schedule (ws, initialRegister);
  joinAll rooms incompatibilities numStudents s.

(** The search of [main], on its own rooms, pairs and sizes. *)
Definition search (threadCount : Z) (rngs : nat → nat → Z) (schedule : list nat)
    : option System :=
  runThreads mainRooms mainIncompatibilities numStudents iterationsPerThread
    threadCount rngs schedule.

(** [for (int i = 0; i < numStudents; i++) ... globalBestAssignment[i]] *)
Definition report (threadCount : Z) (g : Register) : option Report :=
  rows ← mapM (λ i, pair i <$> at_int (globalBestAssignment g) i) (studentIndices numStudents);
  Some {| studentRooms := rows; bestFitness := globalBestFitness g;
          threadCountUsed := threadCount |}.

Definition main (argv1 : option Z) (rngs : nat → nat → Z) (schedule : list nat)
    : Outcome :=
  let threadCount := threadCountOf argv1 in
  match search threadCount rngs schedule ≫= λ s, report threadCount s.2 with
  | Some r => Exit 0 r
  | None => Undefined
  end.

(** What a start-up check would give: an exit with a status other than 0. *)
Definition failsFast (o : Outcome) : Prop :=
  ∃ status r, o = Exit status r ∧ status ≠ 0.

(** ** Runs of the workers *)

(** The student indices of every pair are below [numStudents]. *)
Definition pairsBelow (numStudents : Z) (incompatibilities : list Incompatibility) : Prop :=
  Forall (λ inc, (0 ≤ student1 inc < numStudents) ∧ (0 ≤ student2 inc < numStudents))
         incompatibilities.

(** The buffer of the worker has one entry for each student. *)
Definition sizedWorker (numStudents : Z) (w : Worker) : Prop :=
  length (currentAssignment w) = Z.to_nat numStudents.

(** The random source keeps to the range of [roomDist]. *)
Definition rngInRange (rooms : list Room) (w : Worker) : Prop :=
  ∀ k, 0 ≤ rng w k ≤ roomDistMax rooms.

(** The register holds a candidate together with its own fitness. *)
Definition holdsCandidate (rooms : list Room) (incompatibilities : list Incompatibility)
    (g : Register) : Prop :=
  evaluateSolution (globalBestAssignment g) rooms incompatibilities
  = Some (globalBestFitness g).



(** The scenario of the specification with one room: capacity 5, three
    students, the pair (0,1). *)
Definition oneRoom : list Room := [{| capacity := 5 |}].
Definition onePair : list Incompatibility := [{| student1 := 0; student2 := 1 |}].


(** ** Further notions used to state properties of the code *)

(** The pair with its two students exchanged. *)
Definition swapPair (inc : Incompatibility) : Incompatibility :=
  {| student1 := student2 inc; student2 := student1 inc |}.

(** The places all rooms offer together. *)
Definition totalCapacity (rooms : list Room) : Z := sumZ (capacity <$> rooms).

(** The candidate thread [t] builds in its iteration [j] (from 0): the
    next [numStudents] values of its random source. *)
Definition candidateOf (rngs : nat → nat → Z) (numStudents : Z) (t j : nat) : list Z :=
  rngs t <$> seq (j * Z.to_nat numStudents) (Z.to_nat numStudents).

(** The worker with another content in its buffer. *)
Definition withBuffer (w : Worker) (buffer : list Z) : Worker :=
  {| rng := rng w; calls := calls w; currentAssignment := buffer; todo := todo w |}.

(** What holds of every state of a run of [T] threads of [iters] iterations
    each: every thread is where its count of iterations says, the register
    is at most the fitness of every candidate evaluated so far, and it is
    the initial one or holds one of these candidates with its fitness. *)
Definition runInvariant (rooms : list Room) (incompatibilities : list Incompatibility)
    (numStudents : Z) (rngs : nat → nat → Z) (iters T : nat) (s : System) : Prop :=
  length s.1 = T
  ∧ (∀ t w, s.1 !! t = Some w →
       sizedWorker numStudents w ∧ rng w = rngs t ∧ (todo w ≤ iters)%nat
       ∧ calls w = ((iters - todo w) * Z.to_nat numStudents)%nat)
  ∧ globalBestFitness s.2 ≤ INT_MAX
  ∧ (∀ t w j, s.1 !! t = Some w → (j < iters - todo w)%nat →
       ∃ f, evaluateSolution (candidateOf rngs numStudents t j) rooms incompatibilities
            = Some f
            ∧ globalBestFitness s.2 ≤ f)
  ∧ (s.2 = initialRegister
     ∨ ∃ t w j, s.1 !! t = Some w ∧ (j < iters - todo w)%nat
                ∧ evaluateSolution (candidateOf rngs numStudents t j) rooms
                    incompatibilities = Some (globalBestFitness s.2)
                ∧ globalBestAssignment s.2 = candidateOf rngs numStudents t j).

(** ** The evaluation function on small inputs *)

Example evaluate_two_rooms :
  evaluateSolution [0; 0; 1] [{| capacity := 1 |}; {| capacity := 1 |}] [] = Some 10.
Proof. reflexivity. Qed.

Example evaluate_one_room :
  evaluateSolution [0; 0; 0] [{| capacity := 5 |}]
    [{| student1 := 0; student2 := 1 |}] = Some 5.
Proof. reflexivity. Qed.

Example evaluate_ignores_out_of_range :
  evaluateSolution [7; -1; 0] [{| capacity := 0 |}] [] = Some 10.
Proof. reflexivity. Qed.

(** Signed overflow is undefined in C++; the model gives it the value of
    a two's complement machine, which is why the results below ask that
    the exact penalty be an [int]. *)
Example evaluate_wraps :
  evaluateSolution [] [{| capacity := -214748365 |}] [] = Some (-2147483646).
Proof. reflexivity. Qed.

(** ** Facts on machine integers *)

Lemma wrap_int_id z : is_int z → wrap_int z = z.
Proof.
  unfold is_int, INT_MIN, INT_MAX, wrap_int. intros H.
  rewrite Z.mod_small; lia.
Qed.

Lemma wrap_int_is_int z : is_int (wrap_int z).
Proof.
  unfold is_int, INT_MIN, INT_MAX, wrap_int.
  pose proof (Z.mod_pos_bound (z + 2147483648) 4294967296). lia.
Qed.

Lemma wrap_int_idemp z : wrap_int (wrap_int z) = wrap_int z.
Proof. apply wrap_int_id, wrap_int_is_int. Qed.

Lemma wrap_int_add_l a b : wrap_int (wrap_int a + b) = wrap_int (a + b).
Proof.
  unfold wrap_int.
  replace ((a + 2147483648) mod 4294967296 - 2147483648 + b + 2147483648)
    with ((a + 2147483648) mod 4294967296 + b) by lia.
  rewrite Zplus_mod_idemp_l. f_equal. f_equal. lia.
Qed.

Lemma wrap_int_add_r a b : wrap_int (a + wrap_int b) = wrap_int (a + b).
Proof. rewrite (Z.add_comm a), wrap_int_add_l. f_equal. lia. Qed.

Lemma wrap_int_of_nat_le (n : nat) : wrap_int (Z.of_nat n) ≤ Z.of_nat n.
Proof.
  unfold wrap_int.
  pose proof (Z.mod_le (Z.of_nat n + 2147483648) 4294967296). lia.
Qed.

Lemma static_cast_int_small (n : nat) :
  Z.of_nat n ≤ INT_MAX → static_cast_int n = Z.of_nat n.
Proof.
  intros H. apply wrap_int_id. unfold is_int, INT_MIN, INT_MAX in *. lia.
Qed.

(** ** Facts on vector accesses *)

Lemma at_int_Some {A} (v : list A) i :
  0 ≤ i < Z.of_nat (length v) → is_Some (at_int v i).
Proof.
  intros H. unfold at_int. rewrite bool_decide_eq_false_2 by lia.
  apply lookup_lt_is_Some. lia.
Qed.

Lemma at_int_None {A} (v : list A) i :
  ¬ (0 ≤ i < Z.of_nat (length v)) → at_int v i = None.
Proof.
  intros H. unfold at_int. case_bool_decide; [done|].
  apply lookup_ge_None. lia.
Qed.

Lemma at_int_inv {A} (v : list A) i x :
  at_int v i = Some x → 0 ≤ i < Z.of_nat (length v).
Proof.
  intros H. destruct (decide (0 ≤ i < Z.of_nat (length v))); [done|].
  rewrite at_int_None in H; done.
Qed.

Lemma sumZ_cons x l : sumZ (x :: l) = x + sumZ l.
Proof. reflexivity. Qed.

Lemma sumZ_app l1 l2 : sumZ (l1 ++ l2) = sumZ l1 + sumZ l2.
Proof. induction l1 as [|x l1 IH]; simpl; [done | rewrite IH; lia]. Qed.

Lemma sumZ_nonneg l : Forall (λ x, 0 ≤ x) l → 0 ≤ sumZ l.
Proof. induction 1; simpl; lia. Qed.

Lemma sumZ_Permutation l1 l2 : l1 ≡ₚ l2 → sumZ l1 = sumZ l2.
Proof. induction 1; simpl; lia. Qed.

Lemma sumZ_zero l : Forall (λ x, 0 ≤ x) l → sumZ l = 0 → Forall (λ x, x = 0) l.
Proof.
  induction 1 as [|x l Hx Hl IH]; simpl; intros H; [constructor|].
  pose proof (sumZ_nonneg l Hl). constructor; [lia | apply IH; lia].
Qed.

Lemma occupancy_nil i : occupancy [] i = 0.
Proof. reflexivity. Qed.

Lemma occupancy_app a b i : occupancy (a ++ b) i = occupancy a i + occupancy b i.
Proof. unfold occupancy. rewrite filter_app, length_app. lia. Qed.

Lemma occupancy_cons r a i :
  occupancy (r :: a) i = (if bool_decide (r = Z.of_nat i) then 1 else 0) + occupancy a i.
Proof.
  unfold occupancy. rewrite filter_cons.
  case_bool_decide; case_decide; try done; simpl; lia.
Qed.

Lemma occupancy_nonneg a i : 0 ≤ occupancy a i.
Proof. unfold occupancy. lia. Qed.

Lemma occupancy_le_length a i : occupancy a i ≤ Z.of_nat (length a).
Proof. unfold occupancy. pose proof (length_filter (λ room, room = Z.of_nat i) a). lia. Qed.

(** ** What each loop of [evaluateSolution] computes *)

Lemma countRooms_app a b u :
  countRooms (a ++ b) u = countRooms a u ≫= countRooms b.
Proof.
  revert u. induction a as [|r a IH]; intros u; simpl; [done|].
  destruct (bool_decide (0 ≤ r) && bool_decide (r < static_cast_int (length u))); [|done].
  destruct (at_int u r) as [x|]; simpl; [|done].
  destruct (set_int u r (wrap_int (x + 1))); simpl; done.
Qed.

Lemma usageAt_lookup n a i :
  (i < n)%nat → (usageAt n a <$> seq 0 n) !! i = Some (usageAt n a i).
Proof. intros H. rewrite list_lookup_fmap, lookup_seq_lt by done. done. Qed.

Lemma countRooms_usage n a :
  countRooms a (replicate n 0) = Some (usageAt n a <$> seq 0 n).
Proof.
  induction a as [|r a IH] using rev_ind.
  - simpl. f_equal. apply list_eq. intros i.
    destruct (decide (i < n)%nat) as [Hi|Hi].
    + rewrite usageAt_lookup, lookup_replicate_2 by done.
      unfold usageAt. case_bool_decide; done.
    + rewrite !lookup_ge_None_2; [done | |];
        rewrite ?length_fmap, ?length_seq, ?length_replicate; lia.
  - rewrite countRooms_app, IH. simpl.
    rewrite length_fmap, length_seq.
    pose proof (wrap_int_of_nat_le n) as Hn. fold (static_cast_int n) in Hn.
    destruct (bool_decide (0 ≤ r) && bool_decide (r < static_cast_int n)) eqn:Hg.
    + apply andb_prop in Hg as [H0 H1].
      apply bool_decide_eq_true in H0, H1.
      assert (Hk : (Z.to_nat r < n)%nat) by lia.
      unfold at_int. rewrite bool_decide_eq_false_2 by lia.
      rewrite usageAt_lookup by done. simpl.
      unfold set_int. rewrite length_fmap, length_seq.
      rewrite bool_decide_eq_true_2 by lia. simpl.
      f_equal. apply list_eq. intros i.
      destruct (decide (i < n)%nat) as [Hi|Hi].
      * rewrite (usageAt_lookup n (a ++ [r])) by done.
        destruct (decide (i = Z.to_nat r)) as [->|Hne].
        -- rewrite list_lookup_insert_eq by (rewrite length_fmap, length_seq; done).
           f_equal. unfold usageAt.
           rewrite !bool_decide_eq_true_2 by lia.
           rewrite wrap_int_add_l, occupancy_app, occupancy_cons, occupancy_nil.
           rewrite bool_decide_eq_true_2 by lia. f_equal; lia.
        -- rewrite list_lookup_insert_ne by done.
           rewrite usageAt_lookup by done. f_equal. unfold usageAt.
           rewrite occupancy_app, occupancy_cons, occupancy_nil.
           rewrite (bool_decide_eq_false_2 (r = Z.of_nat i)) by lia.
           by rewrite !Z.add_0_r.
      * rewrite !lookup_ge_None_2; [done | |];
          rewrite ?length_insert, ?length_fmap, ?length_seq; lia.
    + f_equal. apply list_eq. intros i.
      rewrite !list_lookup_fmap. destruct (seq 0 n !! i) as [j|] eqn:Hj; [|done].
      apply lookup_seq in Hj as [-> Hi]. simpl. f_equal.
      unfold usageAt.
      destruct (bool_decide (Z.of_nat i < static_cast_int n)) eqn:Hc; [|done].
      apply bool_decide_eq_true in Hc.
      rewrite occupancy_app, occupancy_cons, occupancy_nil.
      rewrite (bool_decide_eq_false_2 (r = Z.of_nat i)).
      * by rewrite !Z.add_0_r.
      * intros ->. apply andb_false_iff in Hg as [Hg|Hg];
          apply bool_decide_eq_false in Hg; lia.
Qed.

Lemma capacityLoop_sum rooms n a indices p :
  is_int p →
  Forall (λ i, i < n ∧ i < length rooms)%nat indices →
  capacityLoop rooms (usageAt n a <$> seq 0 n) indices p
  = Some (wrap_int (p + sumZ (codeTerm rooms (usageAt n a) <$> indices))).
Proof.
  intros Hp Hidx. revert p Hp.
  induction Hidx as [|i indices [Hi Hr] _ IH]; intros p Hp; simpl.
  - by rewrite Z.add_0_r, wrap_int_id.
  - unfold capacityStep. rewrite usageAt_lookup by done. simpl.
    destruct (lookup_lt_is_Some_2 rooms i Hr) as [r Hri].
    unfold codeTerm at 1. rewrite Hri. simpl.
    case_bool_decide.
    + rewrite IH by apply wrap_int_is_int.
      by rewrite wrap_int_add_l, Z.add_assoc.
    + by rewrite IH, Z.add_0_l.
Qed.

Lemma incompatLoop_in_range a incs p :
  is_int p →
  Forall (inRange a) incs →
  incompatLoop a incs p = Some (wrap_int (p + sumZ (incompatPenalty a <$> incs))).
Proof.
  intros Hp Hincs. revert p Hp.
  induction Hincs as [|inc incs [H1 H2] _ IH]; intros p Hp; simpl.
  - by rewrite Z.add_0_r, wrap_int_id.
  - destruct (at_int_Some a _ H1) as [r1 E1], (at_int_Some a _ H2) as [r2 E2].
    unfold incompatPenalty at 1, sameRoom. rewrite E1, E2. simpl.
    case_bool_decide.
    + rewrite IH by apply wrap_int_is_int.
      by rewrite wrap_int_add_l, Z.add_assoc.
    + by rewrite IH, Z.add_0_l.
Qed.

Lemma incompatLoop_out_of_range a incs p :
  ¬ Forall (inRange a) incs → incompatLoop a incs p = None.
Proof.
  revert p. induction incs as [|inc incs IH]; intros p Hn; simpl.
  - destruct Hn. constructor.
  - destruct (at_int a (student1 inc)) as [r1|] eqn:E1; simpl; [|done].
    destruct (at_int a (student2 inc)) as [r2|] eqn:E2; simpl; [|done].
    apply IH. intros Hincs. apply Hn. constructor; [|done].
    split; eapply at_int_inv; eauto.
Qed.

(** The result of [evaluateSolution] on every input. *)
Lemma evaluateSolution_eq a rooms incs :
  evaluateSolution a rooms incs
  = if decide (Forall (inRange a) incs)
    then Some (wrap_int (codePenalty a rooms + sumZ (incompatPenalty a <$> incs)))
    else None.
Proof.
  unfold evaluateSolution. rewrite countRooms_usage. simpl.
  rewrite capacityLoop_sum.
  - simpl. fold (codePenalty a rooms). case_decide.
    + rewrite incompatLoop_in_range by (done || apply wrap_int_is_int).
      by rewrite wrap_int_add_l.
    + by apply incompatLoop_out_of_range.
  - unfold is_int, INT_MIN, INT_MAX. lia.
  - apply Forall_forall. intros i Hi. apply elem_of_seq in Hi. lia.
Qed.

(** ** When the machine arithmetic is exact *)

Lemma sumZ_elem_le l x : Forall (λ y, 0 ≤ y) l → x ∈ l → x ≤ sumZ l.
Proof.
  induction 1 as [|y l Hy Hl IH]; intros Hx.
  - by apply elem_of_nil in Hx.
  - pose proof (sumZ_nonneg l Hl). simpl.
    apply elem_of_cons in Hx as [->|Hx]; [lia|]. specialize (IH Hx). lia.
Qed.

Lemma sumZ_fmap_le {A} (f g : A → Z) l :
  (∀ x, x ∈ l → f x ≤ g x) → sumZ (f <$> l) ≤ sumZ (g <$> l).
Proof.
  induction l as [|x l IH]; intros H; [done|].
  rewrite !fmap_cons, !sumZ_cons.
  pose proof (H x ltac:(left)).
  assert (sumZ (f <$> l) ≤ sumZ (g <$> l)).
  { apply IH. intros y Hy. apply H. by right. }
  lia.
Qed.

Lemma sumZ_fmap_ext {A} (f g : A → Z) l :
  (∀ x, x ∈ l → f x = g x) → sumZ (f <$> l) = sumZ (g <$> l).
Proof.
  induction l as [|x l IH]; intros H; [done|].
  rewrite !fmap_cons, !sumZ_cons.
  rewrite (H x) by left. rewrite IH; [done|]. intros y Hy. apply H. by right.
Qed.

Lemma sumZ_fmap_add {A} (f g : A → Z) l :
  sumZ ((λ x, f x + g x) <$> l) = sumZ (f <$> l) + sumZ (g <$> l).
Proof.
  induction l as [|x l IH]; [done|].
  rewrite !fmap_cons, !sumZ_cons, IH. lia.
Qed.

Lemma sumZ_fmap_mul {A} (f : A → Z) k l :
  sumZ ((λ x, k * f x) <$> l) = k * sumZ (f <$> l).
Proof.
  induction l as [|x l IH]; [simpl; lia|].
  rewrite !fmap_cons, !sumZ_cons, IH. lia.
Qed.

Lemma sumZ_fmap_zero {A} (f : A → Z) l :
  (∀ x, x ∈ l → f x = 0) → sumZ (f <$> l) = 0.
Proof.
  intros H. rewrite (sumZ_fmap_ext f (λ x, 0 * f x)) by (intros x Hx; rewrite H; done).
  by rewrite sumZ_fmap_mul.
Qed.

Lemma overflowPenalty_nonneg occ cap : 0 ≤ overflowPenalty occ cap.
Proof. unfold overflowPenalty. case_bool_decide; lia. Qed.

Lemma roomPenalty_nonneg a rooms i : 0 ≤ roomPenalty a rooms i.
Proof.
  unfold roomPenalty. destruct (rooms !! i); simpl; [apply overflowPenalty_nonneg | done].
Qed.

Lemma incompatPenalty_bounds a inc : 0 ≤ incompatPenalty a inc ≤ 5.
Proof. unfold incompatPenalty. destruct (sameRoom a inc); lia. Qed.

Lemma roomPenalties_nonneg a rooms indices :
  Forall (λ y, 0 ≤ y) (roomPenalty a rooms <$> indices).
Proof. apply Forall_fmap, Forall_forall. intros i _. apply roomPenalty_nonneg. Qed.

Lemma incompatPenalties_nonneg a incs :
  Forall (λ y, 0 ≤ y) (incompatPenalty a <$> incs).
Proof. apply Forall_fmap, Forall_forall. intros i _. apply incompatPenalty_bounds. Qed.

Lemma specPenalty_nonneg a rooms incs : 0 ≤ specPenalty a rooms incs.
Proof.
  unfold specPenalty.
  pose proof (sumZ_nonneg _ (roomPenalties_nonneg a rooms (seq 0 (length rooms)))).
  pose proof (sumZ_nonneg _ (incompatPenalties_nonneg a incs)). lia.
Qed.

Lemma usageAt_exact n a i :
  Z.of_nat n ≤ INT_MAX → Z.of_nat (length a) ≤ INT_MAX → (i < n)%nat →
  usageAt n a i = occupancy a i.
Proof.
  intros Hn Ha Hi. unfold usageAt. rewrite static_cast_int_small by done.
  rewrite bool_decide_eq_true_2 by lia. apply wrap_int_id.
  pose proof (occupancy_nonneg a i). pose proof (occupancy_le_length a i).
  unfold is_int, INT_MIN, INT_MAX in *. lia.
Qed.

Lemma codePenalty_exact a rooms :
  Z.of_nat (length rooms) ≤ INT_MAX →
  Z.of_nat (length a) ≤ INT_MAX →
  sumZ (roomPenalty a rooms <$> seq 0 (length rooms)) ≤ INT_MAX →
  codePenalty a rooms = sumZ (roomPenalty a rooms <$> seq 0 (length rooms)).
Proof.
  intros Hn Ha Hsum. unfold codePenalty. apply sumZ_fmap_ext. intros i Hi.
  assert (Hle : roomPenalty a rooms i ≤ INT_MAX).
  { etrans; [|exact Hsum]. apply sumZ_elem_le; [apply roomPenalties_nonneg|].
    by apply list_elem_of_fmap_2. }
  apply elem_of_seq in Hi.
  unfold codeTerm, roomPenalty in *. rewrite usageAt_exact by (done || lia).
  destruct (rooms !! i) as [r|]; simpl in *; [|done].
  unfold overflowPenalty in *. case_bool_decide; [|done].
  unfold INT_MAX in *.
  rewrite (wrap_int_id (_ - _)) by (unfold is_int, INT_MIN, INT_MAX; lia).
  apply wrap_int_id. unfold is_int, INT_MIN, INT_MAX. lia.
Qed.

(** Where no access leaves the assignment and the exact penalty is an
    [int], [evaluateSolution] returns the exact penalty. *)
Lemma evaluateSolution_exact a rooms incs :
  Forall (inRange a) incs →
  Z.of_nat (length rooms) ≤ INT_MAX →
  Z.of_nat (length a) ≤ INT_MAX →
  specPenalty a rooms incs ≤ INT_MAX →
  evaluateSolution a rooms incs = Some (specPenalty a rooms incs).
Proof.
  intros Hincs Hn Ha Hsum. rewrite evaluateSolution_eq, decide_True by done.
  pose proof (specPenalty_nonneg a rooms incs) as H0.
  unfold specPenalty in *.
  pose proof (sumZ_nonneg _ (roomPenalties_nonneg a rooms (seq 0 (length rooms)))).
  pose proof (sumZ_nonneg _ (incompatPenalties_nonneg a incs)).
  rewrite codePenalty_exact by (done || lia).
  f_equal. apply wrap_int_id. unfold is_int, INT_MIN, INT_MAX in *. lia.
Qed.

(** *** A bound from the sizes alone *)

Lemma sumZ_indicator r s n :
  sumZ ((λ i, if bool_decide (r = Z.of_nat i) then 1 else 0) <$> seq s n)
  = if bool_decide (Z.of_nat s ≤ r < Z.of_nat (s + n)) then 1 else 0.
Proof.
  revert s. induction n as [|n IH]; intros s; simpl.
  - rewrite bool_decide_eq_false_2; [done | lia].
  - rewrite IH. repeat case_bool_decide; lia.
Qed.

Lemma occupancy_sum_le a n :
  sumZ (occupancy a <$> seq 0 n) ≤ Z.of_nat (length a).
Proof.
  induction a as [|r a IH].
  - rewrite (sumZ_fmap_ext _ (λ _, 0 * 0)) by done.
    rewrite (sumZ_fmap_mul (λ _, 0)). simpl. lia.
  - rewrite (sumZ_fmap_ext _ _ _ (λ i _, occupancy_cons r a i)).
    rewrite (sumZ_fmap_add (λ i, if bool_decide (r = Z.of_nat i) then 1 else 0)).
    rewrite sumZ_indicator. simpl length. case_bool_decide; lia.
Qed.

Lemma roomPenalty_sum_le a rooms :
  Forall (λ r, 0 ≤ capacity r) rooms →
  sumZ (roomPenalty a rooms <$> seq 0 (length rooms)) ≤ 10 * Z.of_nat (length a).
Proof.
  intros Hcap.
  trans (sumZ ((λ i, 10 * occupancy a i) <$> seq 0 (length rooms))).
  - apply sumZ_fmap_le. intros i _. unfold roomPenalty.
    pose proof (occupancy_nonneg a i).
    destruct (rooms !! i) as [r|] eqn:Hr; simpl; [|lia].
    assert (0 ≤ capacity r).
    { eapply (proj1 (Forall_forall _ _) Hcap), list_elem_of_lookup_2, Hr. }
    unfold overflowPenalty. case_bool_decide; lia.
  - rewrite sumZ_fmap_mul. pose proof (occupancy_sum_le a (length rooms)). lia.
Qed.

Lemma incompatPenalty_sum_le a incs :
  sumZ (incompatPenalty a <$> incs) ≤ 5 * Z.of_nat (length incs).
Proof.
  induction incs as [|inc incs IH]; [simpl; lia|].
  rewrite fmap_cons, sumZ_cons, length_cons.
  pose proof (incompatPenalty_bounds a inc). lia.
Qed.

Lemma specPenalty_le a rooms incs :
  Forall (λ r, 0 ≤ capacity r) rooms →
  specPenalty a rooms incs ≤ 10 * Z.of_nat (length a) + 5 * Z.of_nat (length incs).
Proof.
  intros Hcap. unfold specPenalty.
  pose proof (roomPenalty_sum_le a rooms Hcap).
  pose proof (incompatPenalty_sum_le a incs). lia.
Qed.

(** ** The register *)

Lemma criticalSection_lt f a g :
  f < globalBestFitness g →
  criticalSection f a g = {| globalBestFitness := f; globalBestAssignment := a |}.
Proof. intros H. unfold criticalSection. by rewrite bool_decide_eq_true_2. Qed.

Lemma criticalSection_ge f a g :
  globalBestFitness g ≤ f → criticalSection f a g = g.
Proof. intros H. unfold criticalSection. rewrite bool_decide_eq_false_2; [done | lia]. Qed.

Lemma criticalSection_fitness f a g :
  globalBestFitness (criticalSection f a g) = Z.min (globalBestFitness g) f.
Proof. unfold criticalSection. case_bool_decide; simpl; lia. Qed.

Lemma attempts_app us1 us2 g : attempts (us1 ++ us2) g = attempts us2 (attempts us1 g).
Proof. unfold attempts. apply foldl_app. Qed.

Lemma attempts_le us g : globalBestFitness (attempts us g) ≤ globalBestFitness g.
Proof.
  revert g. induction us as [|[f a] us IH]; intros g; simpl; [done|].
  etrans; [apply IH|]. rewrite criticalSection_fitness. lia.
Qed.

Lemma criticalSection_holdsCandidate rooms incs f a g :
  evaluateSolution a rooms incs = Some f →
  g = initialRegister ∨ holdsCandidate rooms incs g →
  holdsCandidate rooms incs (criticalSection f a g)
  ∨ (criticalSection f a g = initialRegister ∧ INT_MAX ≤ f).
Proof.
  intros Hf Hg. unfold criticalSection. case_bool_decide as Hlt.
  - left. exact Hf.
  - destruct Hg as [->|Hg]; [right | by left].
    split; [done|]. simpl in Hlt. lia.
Qed.

(** ** One iteration of a worker *)

Lemma set_int_Some {A} (v : list A) i x :
  0 ≤ i < Z.of_nat (length v) → set_int v i x = Some (<[Z.to_nat i := x]> v).
Proof. intros H. unfold set_int. by rewrite bool_decide_eq_true_2. Qed.

Lemma generate_seq draw k s m current :
  (s + m ≤ length current)%nat →
  generate draw k (Z.of_nat <$> seq s m) current
  = Some ((k + m)%nat, take s current ++ (draw <$> seq k m) ++ drop (s + m) current).
Proof.
  revert k s current. induction m as [|m IH]; intros k s current Hlen; simpl.
  - rewrite !Nat.add_0_r, take_drop. done.
  - rewrite set_int_Some by lia. simpl. rewrite Nat2Z.id.
    rewrite IH by (rewrite length_insert; lia).
    f_equal. f_equal; [lia|].
    destruct (lookup_lt_is_Some_2 current s ltac:(lia)) as [x Hx].
    rewrite (take_S_r _ _ (draw k)) by (rewrite list_lookup_insert_eq; [done | lia]).
    rewrite take_insert_ge by lia.
    rewrite drop_insert_lt by lia.
    rewrite <- app_assoc. simpl. by rewrite Nat.add_succ_r.
Qed.

Lemma generate_all draw k ns current :
  length current = Z.to_nat ns →
  generate draw k (studentIndices ns) current
  = Some ((k + Z.to_nat ns)%nat, draw <$> seq k (Z.to_nat ns)).
Proof.
  intros Hlen. unfold studentIndices. rewrite generate_seq by (simpl; lia).
  simpl. rewrite drop_ge by lia. by rewrite app_nil_r.
Qed.

(** The candidate a worker builds in its next iteration. *)
Lemma iteration_inv rooms incs ns w g w' g' :
  iteration rooms incs ns w g = Some (w', g') →
  ∃ f, evaluateSolution (currentAssignment w') rooms incs = Some f
       ∧ g' = criticalSection f (currentAssignment w') g
       ∧ rng w' = rng w
       ∧ todo w' = pred (todo w).
Proof.
  unfold iteration. intros H.
  destruct (generate _ _ _ _) as [[k current]|]; simpl in H; [|done].
  destruct (evaluateSolution current rooms incs) as [f|] eqn:Hf; simpl in H; [|done].
  injection H as <- <-. exists f. simpl. done.
Qed.

Lemma iteration_total rooms incs ns w g :
  sizedWorker ns w → pairsBelow ns incs →
  ∃ f, let candidate := rng w <$> seq (calls w) (Z.to_nat ns) in
       evaluateSolution candidate rooms incs = Some f
       ∧ iteration rooms incs ns w g
         = Some ({| rng := rng w; calls := calls w + Z.to_nat ns;
                    currentAssignment := candidate; todo := pred (todo w) |},
                 criticalSection f candidate g).
Proof.
  intros Hw Hincs.
  assert (Hr : Forall (inRange (rng w <$> seq (calls w) (Z.to_nat ns))) incs).
  { eapply Forall_impl; [exact Hincs|]. intros inc [H1 H2].
    unfold inRange. rewrite length_fmap, length_seq. lia. }
  pose proof (evaluateSolution_eq (rng w <$> seq (calls w) (Z.to_nat ns)) rooms incs) as He.
  rewrite decide_True in He by done.
  eexists. cbv zeta. split; [exact He|].
  unfold iteration. rewrite generate_all by done. simpl. by rewrite He.
Qed.

Lemma iteration_sized rooms incs ns w g w' g' :
  sizedWorker ns w → iteration rooms incs ns w g = Some (w', g') → sizedWorker ns w'.
Proof.
  unfold iteration, sizedWorker. intros Hw H.
  rewrite generate_all in H by done. simpl in H.
  destruct (evaluateSolution _ rooms incs) as [f|]; simpl in H; [|done].
  injection H as <- <-. simpl. by rewrite length_fmap, length_seq.
Qed.

(** ** Runs of several workers *)

Lemma pending_insert ws t w w' :
  ws !! t = Some w →
  (pending (<[t := w']> ws) + todo w = pending ws + todo w')%nat.
Proof.
  unfold pending. revert t. induction ws as [|v ws IH]; intros t Ht; [done|].
  destruct t as [|t]; cbn in *.
  - injection Ht as ->. lia.
  - rewrite <- !Nat.add_assoc. f_equal. exact (IH t Ht).
Qed.

Lemma stepWorker_inv rooms incs ns t ws g ws' g' :
  stepWorker rooms incs ns t (ws, g) = Some (ws', g') →
  (ws' = ws ∧ g' = g)
  ∨ (∃ w w', ws !! t = Some w ∧ todo w = S (todo w')
             ∧ iteration rooms incs ns w g = Some (w', g')
             ∧ ws' = <[t := w']> ws).
Proof.
  unfold stepWorker. simpl. intros H.
  destruct (ws !! t) as [w|] eqn:Hw; [|left; by injection H as <- <-].
  destruct (todo w) as [|k] eqn:Hk; [left; by injection H as <- <-|].
  destruct (iteration rooms incs ns w g) as [[w' g'']|] eqn:Hi; simpl in H; [|done].
  injection H as <- <-. right. exists w, w'. split_and!; try done.
  apply iteration_inv in Hi as (f & _ & _ & _ & ->). by rewrite Hk.
Qed.

Section runs.
Context (rooms : list Room) (incs : list Incompatibility) (ns : Z).
Context (W : Worker → Prop) (P Q : Register → Prop).
Hypothesis P_Q : ∀ g, P g → Q g.
Hypothesis iteration_W : ∀ w g w' g',
  W w → iteration rooms incs ns w g = Some (w', g') → W w'.
Hypothesis iteration_P : ∀ w g w' g',
  W w → Q g → iteration rooms incs ns w g = Some (w', g') → P g'.

(** [Q] holds all along a run, and [P] as soon as one iteration was
    run, whatever the order of the iterations. *)
Lemma runSchedule_progress schedule ws0 ws g ws' g' :
  Forall W ws → Q g → (pending ws ≤ pending ws0)%nat →
  ((pending ws < pending ws0)%nat → P g) →
  runSchedule rooms incs ns schedule (ws, g) = Some (ws', g') →
  Forall W ws' ∧ Q g' ∧ (pending ws' ≤ pending ws0)%nat
  ∧ ((pending ws' < pending ws0)%nat → P g').
Proof.
  revert ws g. induction schedule as [|t schedule IH]; intros ws g HW HQ Hle HP Hrun.
  - simpl in Hrun. by injection Hrun as <- <-.
  - simpl in Hrun.
    destruct (stepWorker rooms incs ns t (ws, g)) as [[ws1 g1]|] eqn:Hstep;
      simpl in Hrun; [|done].
    apply stepWorker_inv in Hstep as [[-> ->]|(w & w' & Hw & Htodo & Hi & ->)].
    + by apply (IH ws g).
    + assert (HWw : W w) by (eapply (proj1 (Forall_lookup _ _)); eauto).
      pose proof (pending_insert ws t w w' Hw) as Hp.
      apply (IH (<[t := w']> ws) g1); try done.
      * apply Forall_insert; [done|]. by eapply iteration_W.
      * apply P_Q. by eapply iteration_P.
      * lia.
      * intros _. by eapply iteration_P.
Qed.
End runs.

(** With a buffer of the right size in each worker and every pair inside
    it, no iteration leaves its vectors: the run goes through. *)
Lemma runSchedule_total rooms incs ns schedule ws g :
  Forall (sizedWorker ns) ws → pairsBelow ns incs →
  is_Some (runSchedule rooms incs ns schedule (ws, g)).
Proof.
  intros Hws Hincs. revert ws g Hws.
  induction schedule as [|t schedule IH]; intros ws g Hws; simpl; [done|].
  unfold stepWorker at 1. simpl.
  destruct (ws !! t) as [w|] eqn:Hw; simpl; [|by apply IH].
  destruct (todo w) as [|k] eqn:Hk; simpl; [by apply IH|].
  assert (Hsz : sizedWorker ns w) by (eapply (proj1 (Forall_lookup _ _)); eauto).
  destruct (iteration_total rooms incs ns w g Hsz Hincs) as (f & _ & ->). simpl.
  apply IH. apply Forall_insert; [done|]. unfold sizedWorker. simpl.
  by rewrite length_fmap, length_seq.
Qed.

(** ** Joining the workers *)

Lemma runSchedule_app rooms incs ns s1 s2 s :
  runSchedule rooms incs ns (s1 ++ s2) s
  = runSchedule rooms incs ns s1 s ≫= runSchedule rooms incs ns s2.
Proof.
  revert s. induction s1 as [|t s1 IH]; intros s; simpl; [done|].
  destruct (stepWorker rooms incs ns t s) as [s'|]; simpl; [apply IH | done].
Qed.

(** A thread that is given all the turns it still needs ends with nothing
    left to do, and touches the locals of no other thread. *)
Lemma runSchedule_finish rooms incs ns t k ws g w :
  pairsBelow ns incs → Forall (sizedWorker ns) ws →
  ws !! t = Some w → todo w = k →
  ∃ ws' g' w',
    runSchedule rooms incs ns (replicate k t) (ws, g) = Some (ws', g')
    ∧ Forall (sizedWorker ns) ws'
    ∧ ws' !! t = Some w' ∧ todo w' = O
    ∧ (∀ t', t' ≠ t → ws' !! t' = ws !! t').
Proof.
  intros Hincs. revert ws g w.
  induction k as [|k IH]; intros ws g w Hws Hw Hk; simpl.
  - exists ws, g, w. done.
  - unfold stepWorker at 1. simpl. rewrite Hw, Hk.
    assert (Hsz : sizedWorker ns w) by (eapply (proj1 (Forall_lookup _ _)); eauto).
    destruct (iteration_total rooms incs ns w g Hsz Hincs) as (f & _ & ->). simpl.
    set (w1 := {| rng := rng w; calls := (calls w + Z.to_nat ns)%nat;
                  currentAssignment := rng w <$> seq (calls w) (Z.to_nat ns);
                  todo := pred (todo w) |}).
    assert (Hlt : (t < length ws)%nat) by (eapply lookup_lt_Some; eauto).
    destruct (IH (<[t := w1]> ws)
                 (criticalSection f (rng w <$> seq (calls w) (Z.to_nat ns)) g) w1)
      as (ws' & g' & w' & Hrun & Hsized & Hw' & Htodo & Hother).
    + apply Forall_insert; [done|]. unfold sizedWorker, w1. simpl.
      by rewrite length_fmap, length_seq.
    + by rewrite list_lookup_insert_eq.
    + unfold w1. simpl. by rewrite Hk.
    + exists ws', g', w'. split_and!; try done.
      intros t' Hne. rewrite Hother by done. by rewrite list_lookup_insert_ne.
Qed.

Lemma runSchedule_blocks rooms incs ns (turns : nat → nat) ts ws g :
  pairsBelow ns incs → Forall (sizedWorker ns) ws → NoDup ts →
  (∀ t, t ∈ ts → turns t = from_option todo O (ws !! t)) →
  ∃ ws' g',
    runSchedule rooms incs ns (flat_map (λ t, replicate (turns t) t) ts) (ws, g)
    = Some (ws', g')
    ∧ Forall (sizedWorker ns) ws'
    ∧ (∀ t, t ∈ ts → from_option todo O (ws' !! t) = O)
    ∧ (∀ t, t ∉ ts → ws' !! t = ws !! t).
Proof.
  intros Hincs Hws Hnd. revert ws g Hws.
  induction Hnd as [|t ts Hnotin Hnd IH]; intros ws g Hws Hturns; simpl.
  - exists ws, g. split_and!; try done. intros t Ht. by apply elem_of_nil in Ht.
  - rewrite runSchedule_app.
    assert (∃ ws1 g1,
      runSchedule rooms incs ns (replicate (turns t) t) (ws, g) = Some (ws1, g1)
      ∧ Forall (sizedWorker ns) ws1
      ∧ from_option todo O (ws1 !! t) = O
      ∧ (∀ t', t' ≠ t → ws1 !! t' = ws !! t')) as (ws1 & g1 & -> & Hws1 & Ht1 & Hother1).
    { pose proof (Hturns t ltac:(left)) as Ht.
      destruct (ws !! t) as [w|] eqn:Hw; simpl in Ht.
      - destruct (runSchedule_finish rooms incs ns t (turns t) ws g w)
          as (ws1 & g1 & w1 & Hrun & Hsz & Hw1 & Htodo & Hoth); try done.
        exists ws1, g1. rewrite Hw1. done.
      - rewrite Ht. simpl. exists ws, g. rewrite Hw. done. }
    simpl.
    destruct (IH ws1 g1 Hws1) as (ws' & g' & Hrun & Hws' & Hdone & Hother).
    { intros t' Ht'. rewrite Hother1 by (intros ->; done).
      apply Hturns. by right. }
    exists ws', g'. split_and!; try done.
    + intros t' Ht'. apply elem_of_cons in Ht' as [->|Ht']; [|by apply Hdone].
      by rewrite Hother.
    + intros t' Ht'. apply not_elem_of_cons in Ht' as [Hne Ht'].
      rewrite Hother by done. by apply Hother1.
Qed.

Lemma pending_zero ws :
  (∀ t, from_option todo O (ws !! t) = O) → pending ws = O.
Proof.
  unfold pending. induction ws as [|w ws IH]; intros H; [done|].
  cbn. rewrite (H O : todo w = O). apply IH. intros t. apply (H (S t)).
Qed.

(** Once every thread is joined, no iteration is left. *)
Lemma joinAll_total rooms incs ns ws g :
  pairsBelow ns incs → Forall (sizedWorker ns) ws →
  ∃ ws' g', joinAll rooms incs ns (ws, g) = Some (ws', g')
            ∧ Forall (sizedWorker ns) ws' ∧ pending ws' = O.
Proof.
  intros Hincs Hws. unfold joinAll. simpl.
  destruct (runSchedule_blocks rooms incs ns (λ t, from_option todo O (ws !! t))
              (seq 0 (length ws)) ws g) as (ws' & g' & Hrun & Hws' & Hdone & Hother);
    try done; [apply NoDup_seq|].
  exists ws', g'. split_and!; try done.
  apply pending_zero. intros t.
  destruct (decide (t ∈ seq 0 (length ws))) as [Hin|Hout]; [by apply Hdone|].
  rewrite Hother by done. rewrite lookup_ge_None_2; [done|].
  rewrite elem_of_seq in Hout. lia.
Qed.

(** ** Starting the workers *)

Lemma newWorker_Some iterations rooms ns draw :
  0 ≤ roomDistMax rooms → 0 ≤ ns →
  newWorker iterations rooms ns draw
  = Some {| rng := draw; calls := 0;
            currentAssignment := replicate (Z.to_nat ns) 0;
            todo := Z.to_nat iterations |}.
Proof.
  intros Hr Hn. unfold newWorker. by rewrite !bool_decide_eq_true_2.
Qed.

Lemma spawn_Some iterations rooms ns threadCount rngs :
  0 ≤ roomDistMax rooms → 0 ≤ ns →
  ∃ ws, spawn iterations rooms ns threadCount rngs = Some ws
        ∧ Forall (λ w, sizedWorker ns w ∧ ∃ t, rng w = rngs t) ws
        ∧ pending ws = (Z.to_nat threadCount * Z.to_nat iterations)%nat.
Proof.
  intros Hr Hn. unfold spawn.
  assert (∀ ts, ∃ ws,
    mapM (λ t, newWorker iterations rooms ns (rngs t)) ts = Some ws
    ∧ Forall (λ w, sizedWorker ns w ∧ ∃ t, rng w = rngs t) ws
    ∧ pending ws = (length ts * Z.to_nat iterations)%nat) as Hgen.
  { induction ts as [|t ts (ws & Hm & Hws & Hp)].
    - exists []. done.
    - eexists. cbn. rewrite newWorker_Some by done. cbn. rewrite Hm. cbn.
      split_and!; [done | |].
      + constructor; [|done]. split; [|by eexists].
        unfold sizedWorker. simpl. by rewrite length_replicate.
      + unfold pending in *. cbn. by rewrite Hp. }
  destruct (Hgen (seq 0 (Z.to_nat threadCount))) as (ws & Hm & Hws & Hp).
  exists ws. rewrite length_seq in Hp. done.
Qed.

(** The result of a whole run: where [P] holds after any iteration from a
    register satisfying [Q], it holds of the register all threads leave
    behind, for any interleaving. *)
Lemma runThreads_result rooms incs ns iterations threadCount rngs schedule
    (P Q : Register → Prop) :
  Q initialRegister → (∀ g, P g → Q g) →
  (∀ w g w' g', sizedWorker ns w → (∃ t, rng w = rngs t) → Q g →
     iteration rooms incs ns w g = Some (w', g') → P g') →
  0 ≤ roomDistMax rooms → 0 ≤ ns → pairsBelow ns incs →
  1 ≤ threadCount → 1 ≤ iterations →
  ∃ ws g, runThreads rooms incs ns iterations threadCount rngs schedule = Some (ws, g)
          ∧ pending ws = O ∧ P g.
Proof.
  intros HQ0 HPQ Hstep Hr Hn Hincs Htc Hit. unfold runThreads.
  destruct (spawn_Some iterations rooms ns threadCount rngs Hr Hn)
    as (ws0 & -> & Hws0 & Hp0). simpl.
  set (W := λ w, sizedWorker ns w ∧ ∃ t, rng w = rngs t) in *.
  assert (HW : ∀ w g w' g', W w → iteration rooms incs ns w g = Some (w', g') → W w').
  { intros w g w' g' [Hsz [t Ht]] Hi. split; [by eapply iteration_sized|].
    apply iteration_inv in Hi as (f & _ & _ & Hrng & _). exists t. congruence. }
  assert (HP : ∀ w g w' g', W w → Q g → iteration rooms incs ns w g = Some (w', g') → P g').
  { intros w g w' g' [Hsz Hrng]. by apply Hstep. }
  assert (Hsized : ∀ ws, Forall W ws → Forall (sizedWorker ns) ws).
  { intros ws Hws. eapply Forall_impl; [exact Hws|]. by intros w [? _]. }
  destruct (runSchedule_total rooms incs ns schedule ws0 initialRegister)
    as [[ws1 g1] Hrun1]; [by apply Hsized | done |]. rewrite Hrun1. simpl.
  destruct (runSchedule_progress rooms incs ns W P Q HPQ HW HP schedule ws0
              ws0 initialRegister ws1 g1) as (Hws1 & HQ1 & Hle1 & HP1);
    try done; [lia|].
  destruct (joinAll_total rooms incs ns ws1 g1) as (ws2 & g2 & Hjoin & Hws2 & Hp2);
    [done | by apply Hsized |].
  exists ws2, g2. split_and!; try done.
  unfold joinAll in Hjoin.
  eapply (runSchedule_progress rooms incs ns W P Q HPQ HW HP _ ws0 ws1 g1 ws2 g2);
    [done | done | done | done | exact Hjoin | lia].
Qed.

(** ** The entry point *)

Lemma runSchedule_no_worker rooms incs ns schedule g :
  runSchedule rooms incs ns schedule ([], g) = Some ([], g).
Proof. induction schedule as [|t schedule IH]; simpl; [done | exact IH]. Qed.

(** ** Relabelling the rooms *)

Section relabelling.
Context (π : nat → nat) (n : nat).
Hypothesis π_below : ∀ i, (i < n)%nat → (π i < n)%nat.
Hypothesis π_inj : ∀ i j, (i < n)%nat → (j < n)%nat → π i = π j → i = j.







End relabelling.



(** ** A thread on its own *)

Lemma iteration_exact rooms incs ns w g w' g' :
  sizedWorker ns w → pairsBelow ns incs →
  iteration rooms incs ns w g = Some (w', g') →
  ∃ f, evaluateSolution (rng w <$> seq (calls w) (Z.to_nat ns)) rooms incs = Some f
       ∧ g' = criticalSection f (rng w <$> seq (calls w) (Z.to_nat ns)) g.
Proof.
  intros Hw Hincs Hi.
  destruct (iteration_total rooms incs ns w g Hw Hincs) as (f & Hf & Heq).
  rewrite Heq in Hi. injection Hi as <- <-. by exists f.
Qed.

Lemma iterate_result rooms incs ns draw (P Q : Register → Prop) n w g :
  (∀ g, P g → Q g) →
  (∀ w g w' g', sizedWorker ns w → rng w = draw → Q g →
     iteration rooms incs ns w g = Some (w', g') → P g') →
  pairsBelow ns incs → sizedWorker ns w → rng w = draw → Q g →
  ∃ w' g', iterate rooms incs ns (S n) w g = Some (w', g') ∧ P g'.
Proof.
  intros HPQ Hstep Hincs. revert w g.
  induction n as [|n IH]; intros w g Hw Hrng HQ.
  - destruct (iteration_total rooms incs ns w g Hw Hincs) as (f & _ & Hi).
    simpl. rewrite Hi. simpl. eexists _, _. split; [done|].
    by eapply Hstep.
  - destruct (iteration_total rooms incs ns w g Hw Hincs) as (f & _ & Hi).
    change (iterate rooms incs ns (S (S n)) w g)
      with (iteration rooms incs ns w g
            ≫= λ '(w', g'), iterate rooms incs ns (S n) w' g').
    rewrite Hi. simpl. apply IH.
    + unfold sizedWorker. simpl. by rewrite length_fmap, length_seq.
    + done.
    + apply HPQ. by eapply Hstep.
Qed.

Lemma roomDistMax_nonempty rooms :
  rooms ≠ [] → Z.of_nat (length rooms) ≤ INT_MAX → 0 ≤ roomDistMax rooms.
Proof.
  intros Hne Hn. unfold roomDistMax.
  assert (1 ≤ Z.of_nat (length rooms)) by (destruct rooms; [done | simpl; lia]).
  rewrite wrap_int_id; unfold is_int, INT_MIN, INT_MAX in *; lia.
Qed.

(** ** The bound on the fitness *)

Lemma evaluateSolution_le a rooms incs :
  Forall (λ r, 0 ≤ capacity r) rooms →
  Forall (inRange a) incs →
  Z.of_nat (length rooms) ≤ INT_MAX →
  10 * Z.of_nat (length a) + 5 * Z.of_nat (length incs) < INT_MAX →
  ∃ v, evaluateSolution a rooms incs = Some v
       ∧ v ≤ 10 * Z.of_nat (length a) + 5 * Z.of_nat (length incs)
       ∧ v < INT_MAX.
Proof.
  intros Hcap Hincs Hn Hsize.
  pose proof (specPenalty_le a rooms incs Hcap).
  exists (specPenalty a rooms incs). split; [|lia].
  apply evaluateSolution_exact; try done; unfold INT_MAX in *; lia.
Qed.

(** ** The scenario with one room *)

Lemma oneRoom_candidate candidate :
  length candidate = 3%nat →
  Forall (λ r, 0 ≤ r ≤ roomDistMax oneRoom) candidate →
  candidate = [0; 0; 0].
Proof.
  change (roomDistMax oneRoom) with 0.
  destruct candidate as [|r1 [|r2 [|r3 [|]]]]; try done. intros _ H.
  apply Forall_cons in H as [H1 H]. apply Forall_cons in H as [H2 H].
  apply Forall_cons in H as [H3 _].
  f_equal; [lia|]. f_equal; [lia|]. f_equal; lia.
Qed.

Lemma oneRoom_pairsBelow : pairsBelow 3 onePair.
Proof. repeat constructor; simpl; lia. Qed.

(** Whatever the register held, after an iteration on the one room it
    holds the fitness 5. *)
Lemma oneRoom_iteration w g w' g' :
  sizedWorker 3 w → rngInRange oneRoom w →
  g = initialRegister ∨ globalBestFitness g = 5 →
  iteration oneRoom onePair 3 w g = Some (w', g') →
  globalBestFitness g' = 5.
Proof.
  intros Hw Hrng Hg Hi.
  apply iteration_exact in Hi as (f & Hf & ->); [|done|apply oneRoom_pairsBelow].
  rewrite (oneRoom_candidate (rng w <$> seq (calls w) (Z.to_nat 3))) in Hf.
  - change (evaluateSolution [0; 0; 0] oneRoom onePair) with (Some 5) in Hf.
    injection Hf as <-. rewrite criticalSection_fitness.
    destruct Hg as [-> | ->];
      [change (globalBestFitness initialRegister) with 2147483647|]; lia.
  - by rewrite length_fmap, length_seq.
  - apply Forall_fmap, Forall_forall. intros k _. apply Hrng.
Qed.

(** ** More on the evaluation *)

Lemma sameRoom_swapPair a inc : sameRoom a (swapPair inc) = sameRoom a inc.
Proof.
  unfold sameRoom, swapPair. simpl.
  destruct (at_int a (student1 inc)) as [r1|], (at_int a (student2 inc)) as [r2|];
    try done.
  apply bool_decide_ext. split; congruence.
Qed.

Lemma inRange_swapPair a inc : inRange a (swapPair inc) ↔ inRange a inc.
Proof. unfold inRange, swapPair. simpl. tauto. Qed.

Lemma occupancy_Permutation a a' i : a' ≡ₚ a → occupancy a' i = occupancy a i.
Proof. intros H. unfold occupancy. by rewrite H. Qed.

Lemma occupancy_filter_valid n a i :
  (i < n)%nat →
  occupancy (filter (λ room, 0 ≤ room < Z.of_nat n) a) i = occupancy a i.
Proof.
  intros Hi. induction a as [|r a IH]; [done|].
  rewrite filter_cons. case_decide as Hr.
  - by rewrite !occupancy_cons, IH.
  - rewrite occupancy_cons, IH. rewrite bool_decide_eq_false_2; [done | lia].
Qed.


(** The capacity loop sees the assignment only through the occupancy of
    the rooms. *)
Lemma codePenalty_ext a a' rooms :
  (∀ i, (i < length rooms)%nat → occupancy a' i = occupancy a i) →
  codePenalty a' rooms = codePenalty a rooms.
Proof.
  intros H. unfold codePenalty. apply sumZ_fmap_ext. intros i Hi.
  apply elem_of_seq in Hi. unfold codeTerm, usageAt. by rewrite H by lia.
Qed.

Lemma evaluateSolution_no_pairs a rooms :
  evaluateSolution a rooms [] = Some (wrap_int (codePenalty a rooms)).
Proof.
  rewrite evaluateSolution_eq, decide_True by constructor. simpl.
  by rewrite Z.add_0_r.
Qed.

Lemma evaluateSolution_no_rooms a incs :
  Forall (inRange a) incs →
  evaluateSolution a [] incs = Some (wrap_int (sumZ (incompatPenalty a <$> incs))).
Proof. intros H. by rewrite evaluateSolution_eq, decide_True. Qed.

Lemma wrap_int_add a b : wrap_int (wrap_int a + wrap_int b) = wrap_int (a + b).
Proof. by rewrite wrap_int_add_l, wrap_int_add_r. Qed.

Lemma sumZ_lookup {A} (f : A → Z) l :
  sumZ ((λ i, from_option f 0 (l !! i)) <$> seq 0 (length l)) = sumZ (f <$> l).
Proof.
  induction l as [|x l IH]; [done|].
  simpl length. rewrite <- cons_seq, <- fmap_S_seq, !fmap_cons, !sumZ_cons.
  rewrite <- list_fmap_compose. simpl. by rewrite <- IH.
Qed.

(** A valid assignment seats each student in exactly one room. *)
Lemma occupancy_sum_valid a rooms :
  validAssignment a rooms →
  sumZ (occupancy a <$> seq 0 (length rooms)) = Z.of_nat (length a).
Proof.
  induction 1 as [|r a Hr _ IH].
  - rewrite (sumZ_fmap_zero (occupancy [])); done.
  - rewrite (sumZ_fmap_ext _ _ _ (λ i _, occupancy_cons r a i)).
    rewrite (sumZ_fmap_add (λ i, if bool_decide (r = Z.of_nat i) then 1 else 0)).
    rewrite sumZ_indicator, IH. rewrite bool_decide_eq_true_2 by lia.
    simpl length. lia.
Qed.

Lemma roomPenalty_ge a rooms i :
  10 * (occupancy a i - from_option capacity 0 (rooms !! i)) ≤ roomPenalty a rooms i
  ∨ rooms !! i = None.
Proof.
  unfold roomPenalty. destruct (rooms !! i) as [r|]; [left | by right]. simpl.
  unfold overflowPenalty. case_bool_decide; lia.
Qed.

Lemma roomPenalty_sum_ge a rooms :
  validAssignment a rooms →
  10 * (Z.of_nat (length a) - totalCapacity rooms)
  ≤ sumZ (roomPenalty a rooms <$> seq 0 (length rooms)).
Proof.
  intros Hv. unfold totalCapacity.
  rewrite <- (sumZ_lookup capacity rooms), <- (occupancy_sum_valid a rooms Hv).
  trans (sumZ ((λ i, 10 * (occupancy a i + (-1) * from_option capacity 0 (rooms !! i)))
               <$> seq 0 (length rooms))).
  - rewrite sumZ_fmap_mul, sumZ_fmap_add, (sumZ_fmap_mul _ (-1)). lia.
  - apply sumZ_fmap_le. intros i Hi. apply elem_of_seq in Hi.
    destruct (roomPenalty_ge a rooms i) as [H|H]; [lia|].
    apply lookup_ge_None in H. lia.
Qed.

Lemma overflowPenalty_antitone occ cap cap' :
  cap ≤ cap' → overflowPenalty occ cap' ≤ overflowPenalty occ cap.
Proof. intros H. unfold overflowPenalty. repeat case_bool_decide; lia. Qed.

Lemma roomPenalty_antitone a rooms rooms' i :
  Forall2 (λ r r', capacity r ≤ capacity r') rooms rooms' →
  roomPenalty a rooms' i ≤ roomPenalty a rooms i.
Proof.
  intros H. unfold roomPenalty.
  destruct (rooms' !! i) as [r'|] eqn:Hr'.
  - destruct (Forall2_lookup_r _ _ _ _ _ H Hr') as (r & -> & Hle). simpl.
    by apply overflowPenalty_antitone.
  - simpl. destruct (rooms !! i); simpl; [apply overflowPenalty_nonneg | done].
Qed.

(** ** More on the register *)

Lemma attempts_above us g :
  Forall (λ u, globalBestFitness g ≤ u.1) us → attempts us g = g.
Proof.
  induction 1 as [|[f a] us Hu _ IH]; [done|].
  change (attempts ((f, a) :: us) g) with (attempts us (criticalSection f a g)).
  by rewrite criticalSection_ge.
Qed.

Lemma attempts_below f us g :
  f < globalBestFitness g → Forall (λ u, f < u.1) us →
  f < globalBestFitness (attempts us g).
Proof.
  intros Hg Hus. revert g Hg.
  induction Hus as [|[f' a'] us Hu _ IH]; intros g Hg; [done|].
  change (attempts ((f', a') :: us) g) with (attempts us (criticalSection f' a' g)).
  apply IH. rewrite criticalSection_fitness. simpl in Hu. lia.
Qed.

Lemma attempts_le_each us g u :
  u ∈ us → globalBestFitness (attempts us g) ≤ u.1.
Proof.
  intros Hu. apply list_elem_of_split in Hu as (us1 & us2 & ->).
  rewrite attempts_app.
  change (attempts (u :: us2) (attempts us1 g))
    with (attempts us2 (criticalSection u.1 u.2 (attempts us1 g))).
  etrans; [apply attempts_le|]. rewrite criticalSection_fitness. lia.
Qed.

Lemma attempts_member us g :
  attempts us g = g
  ∨ ∃ u, u ∈ us
         ∧ attempts us g = {| globalBestFitness := u.1; globalBestAssignment := u.2 |}.
Proof.
  induction us as [|u us IH] using rev_ind; [by left|].
  rewrite attempts_app.
  change (attempts [u] (attempts us g)) with (criticalSection u.1 u.2 (attempts us g)).
  unfold criticalSection. case_bool_decide.
  - right. exists u. split; [|done]. apply elem_of_app. right. by left.
  - destruct IH as [->|(u' & Hu' & ->)]; [by left|].
    right. exists u'. split; [|done]. apply elem_of_app. by left.
Qed.

(** ** More on the runs *)

Lemma iteration_step rooms incs ns w g w' g' :
  sizedWorker ns w →
  iteration rooms incs ns w g = Some (w', g') →
  ∃ f, evaluateSolution (rng w <$> seq (calls w) (Z.to_nat ns)) rooms incs = Some f
       ∧ g' = criticalSection f (rng w <$> seq (calls w) (Z.to_nat ns)) g
       ∧ w' = {| rng := rng w; calls := calls w + Z.to_nat ns;
                 currentAssignment := rng w <$> seq (calls w) (Z.to_nat ns);
                 todo := pred (todo w) |}.
Proof.
  intros Hw Hi. unfold iteration in Hi. rewrite generate_all in Hi by done.
  simpl in Hi.
  destruct (evaluateSolution _ rooms incs) as [f|]; simpl in Hi; [|done].
  injection Hi as <- <-. by exists f.
Qed.

Lemma pending_zero_inv ws t w : pending ws = O → ws !! t = Some w → todo w = O.
Proof.
  unfold pending. revert t. induction ws as [|v ws IH]; intros t Hp Ht; [done|].
  cbn in Hp. destruct t as [|t]; simpl in Ht.
  - injection Ht as ->. lia.
  - apply (IH t); [lia | done].
Qed.

Lemma spawn_eq iterations rooms ns threadCount rngs :
  0 ≤ roomDistMax rooms → 0 ≤ ns →
  spawn iterations rooms ns threadCount rngs
  = Some ((λ t, {| rng := rngs t; calls := 0;
                   currentAssignment := replicate (Z.to_nat ns) 0;
                   todo := Z.to_nat iterations |}) <$> seq 0 (Z.to_nat threadCount)).
Proof.
  intros Hr Hn. unfold spawn. generalize (seq 0 (Z.to_nat threadCount)) as ts.
  induction ts as [|t ts IH]; [done|].
  cbn. rewrite newWorker_Some by done. cbn. rewrite IH. done.
Qed.

Section invariant.
Context (rooms : list Room) (incs : list Incompatibility) (ns : Z).
Context (rngs : nat → nat → Z) (iters T : nat).

Lemma runInvariant_spawn iterations threadCount :
  Z.to_nat iterations = iters → Z.to_nat threadCount = T →
  runInvariant rooms incs ns rngs iters T
    ((λ t, {| rng := rngs t; calls := 0;
              currentAssignment := replicate (Z.to_nat ns) 0;
              todo := Z.to_nat iterations |}) <$> seq 0 (Z.to_nat threadCount),
     initialRegister).
Proof.
  intros Hi HT. unfold runInvariant. simpl. split_and!.
  - by rewrite length_fmap, length_seq.
  - intros t w Hw. rewrite list_lookup_fmap in Hw.
    destruct (seq 0 (Z.to_nat threadCount) !! t) as [t'|] eqn:Ht; [|done].
    apply lookup_seq in Ht as [-> _]. injection Hw as <-. simpl.
    unfold sizedWorker. simpl. rewrite length_replicate. split_and!; try done; lia.
  - done.
  - intros t w j Hw Hj. rewrite list_lookup_fmap in Hw.
    destruct (seq 0 (Z.to_nat threadCount) !! t) as [t'|]; [|done].
    injection Hw as <-. simpl in Hj. lia.
  - by left.
Qed.

Lemma runInvariant_step t s s' :
  runInvariant rooms incs ns rngs iters T s →
  stepWorker rooms incs ns t s = Some s' →
  runInvariant rooms incs ns rngs iters T s'.
Proof.
  destruct s as [ws g], s' as [ws' g']. intros (Hlen & Hws & Hmax & Hle & Hmem) Hstep.
  apply stepWorker_inv in Hstep as [[-> ->]|(w & w' & Hw & Htodo & Hi & ->)]; [done|].
  simpl in *. destruct (Hws t w Hw) as (Hsz & Hrng & Hti & Hcalls).
  apply iteration_step in Hi as (f & Hf & -> & Hw'); [|done].
  assert (Hcand : rng w <$> seq (calls w) (Z.to_nat ns)
                  = candidateOf rngs ns t (iters - todo w)).
  { unfold candidateOf. by rewrite Hrng, Hcalls. }
  rewrite Hcand in *. clear Hcand.
  assert (Hk : todo w' = pred (todo w)) by (rewrite Hw'; done).
  assert (Hlt : (t < length ws)%nat) by (eapply lookup_lt_Some; eauto).
  unfold runInvariant. simpl. split_and!.
  - by rewrite length_insert.
  - intros t1 w1 Hw1. destruct (decide (t1 = t)) as [->|Hne].
    + rewrite list_lookup_insert_eq in Hw1 by done. injection Hw1 as <-.
      rewrite Hw'. simpl. unfold sizedWorker, candidateOf. simpl.
      rewrite length_fmap, length_seq. split_and!; try done; [lia|].
      rewrite Hcalls. destruct (todo w) as [|k]; [done|]. simpl.
      replace (iters - k)%nat with (S (iters - S k)) by lia. simpl. lia.
    + rewrite list_lookup_insert_ne in Hw1 by done. by apply Hws.
  - rewrite criticalSection_fitness. lia.
  - intros t1 w1 j Hw1 Hj. rewrite criticalSection_fitness.
    destruct (decide (t1 = t)) as [->|Hne].
    + rewrite list_lookup_insert_eq in Hw1 by done. injection Hw1 as <-.
      destruct (decide (j = iters - todo w)%nat) as [->|Hj'].
      * exists f. split; [done | lia].
      * destruct (Hle t w j Hw ltac:(lia)) as (f1 & Hf1 & Hle1).
        exists f1. split; [done | lia].
    + rewrite list_lookup_insert_ne in Hw1 by done.
      destruct (Hle t1 w1 j Hw1 Hj) as (f1 & Hf1 & Hle1).
      exists f1. split; [done | lia].
  - unfold criticalSection. case_bool_decide as Hless.
    + right. exists t, w', (iters - todo w)%nat. simpl.
      rewrite list_lookup_insert_eq by done. split_and!; try done. lia.
    + destruct Hmem as [->|(t1 & w1 & j & Hw1 & Hj & Hf1 & Ha1)]; [by left|].
      right. destruct (decide (t1 = t)) as [->|Hne].
      * exists t, w', j. rewrite list_lookup_insert_eq by done.
        rewrite Hw in Hw1. injection Hw1 as <-. split_and!; try done. lia.
      * exists t1, w1, j. rewrite list_lookup_insert_ne by done. done.
Qed.

Lemma runInvariant_run schedule s s' :
  runInvariant rooms incs ns rngs iters T s →
  runSchedule rooms incs ns schedule s = Some s' →
  runInvariant rooms incs ns rngs iters T s'.
Proof.
  revert s. induction schedule as [|t schedule IH]; intros s Hs Hrun; simpl in Hrun.
  - by injection Hrun as <-.
  - destruct (stepWorker rooms incs ns t s) as [s1|] eqn:Hstep; simpl in Hrun; [|done].
    apply (IH s1); [|done]. by eapply runInvariant_step.
Qed.
End invariant.

(** Every thread runs all its iterations, and what the register holds
    after the last join is the least fitness among all candidates. *)
Lemma runThreads_minimum rooms incs ns iterations threadCount rngs schedule :
  0 ≤ roomDistMax rooms → 0 ≤ ns → pairsBelow ns incs →
  ∃ ws g,
    runThreads rooms incs ns iterations threadCount rngs schedule = Some (ws, g)
    ∧ globalBestFitness g ≤ INT_MAX
    ∧ (∀ t j, (t < Z.to_nat threadCount)%nat → (j < Z.to_nat iterations)%nat →
         ∃ f, evaluateSolution (candidateOf rngs ns t j) rooms incs = Some f
              ∧ globalBestFitness g ≤ f)
    ∧ (g = initialRegister
       ∨ ∃ t j, (t < Z.to_nat threadCount)%nat ∧ (j < Z.to_nat iterations)%nat
                ∧ evaluateSolution (candidateOf rngs ns t j) rooms incs
                  = Some (globalBestFitness g)
                ∧ globalBestAssignment g = candidateOf rngs ns t j).
Proof.
  intros Hr Hn Hincs. unfold runThreads. rewrite spawn_eq by done. simpl.
  set (ws0 := _ <$> seq 0 (Z.to_nat threadCount)).
  pose proof (runInvariant_spawn rooms incs ns rngs (Z.to_nat iterations)
                (Z.to_nat threadCount) iterations threadCount eq_refl eq_refl) as H0.
  fold ws0 in H0.
  assert (Hsized : ∀ ws g, runInvariant rooms incs ns rngs (Z.to_nat iterations)
                     (Z.to_nat threadCount) (ws, g) → Forall (sizedWorker ns) ws).
  { intros ws g (_ & Hws & _). apply Forall_lookup. intros t w Hw.
    by apply (Hws t w Hw). }
  destruct (runSchedule_total rooms incs ns schedule ws0 initialRegister)
    as [[ws1 g1] Hrun1]; [by eapply Hsized | done |]. rewrite Hrun1. simpl.
  pose proof (runInvariant_run _ _ _ _ _ _ _ _ _ H0 Hrun1) as H1.
  destruct (joinAll_total rooms incs ns ws1 g1) as (ws2 & g2 & Hjoin & _ & Hp2);
    [done | by eapply Hsized |].
  exists ws2, g2. split; [done|].
  unfold joinAll in Hjoin.
  destruct (runInvariant_run _ _ _ _ _ _ _ _ _ H1 Hjoin) as (Hlen & Hws & Hmax & Hle & Hmem).
  simpl in *. split; [done|]. split.
  - intros t j Ht Hj.
    destruct (lookup_lt_is_Some_2 ws2 t ltac:(lia)) as [w Hw].
    apply (Hle t w j Hw). rewrite (pending_zero_inv ws2 t w Hp2 Hw). lia.
  - destruct Hmem as [->|(t & w & j & Hw & Hj & Hf & Ha)]; [by left|].
    right. exists t, j. split_and!; try done.
    + apply lookup_lt_Some in Hw. lia.
    + lia.
Qed.

Lemma roomDistMax_eq rooms :
  rooms ≠ [] → Z.of_nat (length rooms) ≤ INT_MAX →
  roomDistMax rooms = Z.of_nat (length rooms) - 1.
Proof.
  intros Hne Hn. unfold roomDistMax.
  assert (1 ≤ Z.of_nat (length rooms)) by (destruct rooms; [done | simpl; lia]).
  rewrite wrap_int_id; unfold is_int, INT_MIN, INT_MAX in *; lia.
Qed.

Lemma candidateOf_length rngs ns t j : length (candidateOf rngs ns t j) = Z.to_nat ns.
Proof. unfold candidateOf. by rewrite length_fmap, length_seq. Qed.

Lemma iterate_total rooms incs ns n w g :
  sizedWorker ns w → pairsBelow ns incs → is_Some (iterate rooms incs ns n w g).
Proof.
  intros Hw Hincs. revert w g Hw. induction n as [|n IH]; intros w g Hw; simpl; [done|].
  destruct (iteration_total rooms incs ns w g Hw Hincs) as (f & _ & ->). simpl.
  apply IH. unfold sizedWorker. simpl. by rewrite length_fmap, length_seq.
Qed.

(** A thread alone on the list, given any turns, and then joined, has run
    as [iterate] runs it. *)
Lemma runSchedule_single_finish rooms incs ns n w g :
  todo w = n →
  runSchedule rooms incs ns (replicate n O) ([w], g)
  = (λ '(w', g'), ([w'], g')) <$> iterate rooms incs ns n w g.
Proof.
  revert w g. induction n as [|n IH]; intros w g Hn; simpl; [done|].
  unfold stepWorker at 1. simpl. rewrite Hn.
  destruct (iteration rooms incs ns w g) as [[w' g']|] eqn:Hi; simpl; [|done].
  apply IH. apply iteration_inv in Hi as (f & _ & _ & _ & ->). by rewrite Hn.
Qed.

Lemma joinAll_single rooms incs ns w g :
  joinAll rooms incs ns ([w], g)
  = (λ '(w', g'), ([w'], g')) <$> iterate rooms incs ns (todo w) w g.
Proof.
  unfold joinAll. simpl. rewrite app_nil_r. by apply runSchedule_single_finish.
Qed.

Lemma runSchedule_single rooms incs ns schedule w g :
  runSchedule rooms incs ns schedule ([w], g) ≫= joinAll rooms incs ns
  = (λ '(w', g'), ([w'], g')) <$> iterate rooms incs ns (todo w) w g.
Proof.
  revert w g. induction schedule as [|t schedule IH]; intros w g.
  - simpl. apply joinAll_single.
  - simpl. unfold stepWorker at 1. simpl.
    destruct t as [|t]; simpl; [|apply IH].
    destruct (todo w) as [|k] eqn:Hk; simpl.
    + rewrite IH, Hk. done.
    + destruct (iteration rooms incs ns w g) as [[w' g']|] eqn:Hi; simpl; [|done].
      rewrite IH. apply iteration_inv in Hi as (f & _ & _ & _ & ->). by rewrite Hk.
Qed.

(** The rows of the report of [main]: the students with their rooms. *)
Lemma report_rows (l pre : list Z) :
  mapM (λ i, pair i <$> at_int (pre ++ l) i) (Z.of_nat <$> seq (length pre) (length l))
  = Some (zip (Z.of_nat <$> seq (length pre) (length l)) l).
Proof.
  revert pre. induction l as [|x l IH]; intros pre; [done|].
  simpl length. rewrite <- cons_seq, fmap_cons. cbn [mapM zip zip_with].
  assert (Hx : at_int (pre ++ x :: l) (Z.of_nat (length pre)) = Some x).
  { unfold at_int. rewrite bool_decide_eq_false_2 by lia.
    rewrite Nat2Z.id. by rewrite list_lookup_middle. }
  rewrite Hx. simpl.
  specialize (IH (pre ++ [x])). rewrite <- app_assoc, length_app in IH. simpl in IH.
  rewrite Nat.add_1_r in IH. rewrite IH. done.
Qed.

Lemma report_Some threadCount g :
  length (globalBestAssignment g) = Z.to_nat numStudents →
  report threadCount g
  = Some {| studentRooms := zip (studentIndices numStudents) (globalBestAssignment g);
            bestFitness := globalBestFitness g;
            threadCountUsed := threadCount |}.
Proof.
  intros Hlen. unfold report, studentIndices. rewrite <- Hlen.
  pose proof (report_rows (globalBestAssignment g) []) as H. simpl in H.
  rewrite H. done.
Qed.

Lemma mainRooms_facts :
  mainRooms ≠ [] ∧ Z.of_nat (length mainRooms) ≤ INT_MAX
  ∧ Forall (λ r, 0 ≤ capacity r) mainRooms
  ∧ roomDistMax mainRooms = 9.
Proof.
  split_and!; [done | vm_compute; discriminate | | reflexivity].
  apply (bool_decide_unpack (Forall (λ r, 0 ≤ capacity r) mainRooms)).
  vm_compute. exact I.
Qed.

Lemma mainIncompatibilities_facts :
  pairsBelow numStudents mainIncompatibilities
  ∧ length mainIncompatibilities = 33%nat.
Proof.
  split; [|reflexivity].
  apply (bool_decide_unpack (pairsBelow numStudents mainIncompatibilities)).
  vm_compute. exact I.
Qed.

(** With at least one thread and one iteration, on rooms without negative
    capacity and sizes whose bound is an [int], the run ends with a
    candidate in the register, and a fitness between 0 and the bound. *)
Lemma runThreads_best rooms incs ns iterations threadCount rngs schedule :
  Forall (λ r, 0 ≤ capacity r) rooms →
  rooms ≠ [] → Z.of_nat (length rooms) ≤ INT_MAX →
  0 ≤ ns → pairsBelow ns incs →
  10 * ns + 5 * Z.of_nat (length incs) < INT_MAX →
  1 ≤ threadCount → 1 ≤ iterations →
  ∃ ws g t j,
    runThreads rooms incs ns iterations threadCount rngs schedule = Some (ws, g)
    ∧ 0 ≤ globalBestFitness g ≤ 10 * ns + 5 * Z.of_nat (length incs)
    ∧ evaluateSolution (globalBestAssignment g) rooms incs = Some (globalBestFitness g)
    ∧ globalBestAssignment g = candidateOf rngs ns t j.
Proof.
  intros Hcap Hne Hn Hns Hincs Hsize Htc Hit.
  destruct (runThreads_minimum rooms incs ns iterations threadCount rngs schedule)
    as (ws & g & Hrun & Hmax & Hle & Hmem); try done.
  { by apply roomDistMax_nonempty. }
  assert (Hcand : ∀ t j, ∃ v,
    evaluateSolution (candidateOf rngs ns t j) rooms incs = Some v
    ∧ 0 ≤ v ≤ 10 * ns + 5 * Z.of_nat (length incs)).
  { intros t j.
    assert (Hin : Forall (inRange (candidateOf rngs ns t j)) incs).
    { eapply Forall_impl; [exact Hincs|]. intros inc [H1 H2].
      unfold inRange. rewrite candidateOf_length. lia. }
    pose proof (specPenalty_le (candidateOf rngs ns t j) rooms incs Hcap) as Hb.
    pose proof (specPenalty_nonneg (candidateOf rngs ns t j) rooms incs).
    rewrite candidateOf_length in Hb.
    exists (specPenalty (candidateOf rngs ns t j) rooms incs). split; [|lia].
    apply evaluateSolution_exact; try done;
      rewrite ?candidateOf_length; unfold INT_MAX in *; lia. }
  destruct (Hle O O ltac:(lia) ltac:(lia)) as (f0 & Hf0 & Hle0).
  destruct (Hcand O O) as (v0 & Hv0 & Hb0). rewrite Hf0 in Hv0. injection Hv0 as <-.
  destruct Hmem as [->|(t & j & _ & _ & Hf & Ha)].
  { simpl in Hle0. lia. }
  exists ws, g, t, j. destruct (Hcand t j) as (v & Hv & Hb).
  rewrite Hf in Hv. injection Hv as <-. rewrite Ha. done.
Qed.

(** * The properties of the specification *)

(** ** The fitness evaluation *)

(** C1, as the specification words it, fails: the accesses
    [assignment[inc.student1]] and [assignment[inc.student2]] are not
    guarded, so with one student and the pair (0,1) the evaluation reads
    outside the assignment and returns nothing. *)
Lemma evaluateSolution_pair_outside :
  evaluateSolution [0] [{| capacity := 1 |}] [{| student1 := 0; student2 := 1 |}] = None
  ∧ evaluateSolution [0] [{| capacity := 1 |}] [{| student1 := 0; student2 := 1 |}]
    ≠ Some (specPenalty [0] [{| capacity := 1 |}] [{| student1 := 0; student2 := 1 |}]).
Proof. split; [reflexivity | discriminate]. Qed.

(** C1 (amended).  For every assignment, room list and incompatibility
    list in which each pair names two students of the assignment, and for
    which the sizes and the exact penalty fit an [int], [evaluateSolution]
    returns exactly the sum of (occupancy - capacity) * 10 over the rooms
    whose occupancy exceeds their capacity (entries that are no room index
    counting for no room), plus 5 for each pair, duplicates included, whose
    two students have the same room value. *)
Theorem evaluateSolution_is_specPenalty a rooms incs :
  Forall (inRange a) incs →
  Z.of_nat (length rooms) ≤ INT_MAX →
  Z.of_nat (length a) ≤ INT_MAX →
  specPenalty a rooms incs ≤ INT_MAX →
  evaluateSolution a rooms incs = Some (specPenalty a rooms incs).
Proof. apply evaluateSolution_exact. Qed.

Lemma evaluateSolution_is_specPenalty_witness :
  Forall (inRange [0; 0; 7; 1])
    [{| student1 := 0; student2 := 1 |}; {| student1 := 0; student2 := 1 |};
     {| student1 := 1; student2 := 3 |}]
  ∧ specPenalty [0; 0; 7; 1] [{| capacity := 1 |}; {| capacity := 1 |}]
      [{| student1 := 0; student2 := 1 |}; {| student1 := 0; student2 := 1 |};
       {| student1 := 1; student2 := 3 |}] = 20
  ∧ evaluateSolution [0; 0; 7; 1] [{| capacity := 1 |}; {| capacity := 1 |}]
      [{| student1 := 0; student2 := 1 |}; {| student1 := 0; student2 := 1 |};
       {| student1 := 1; student2 := 3 |}]
    = Some (specPenalty [0; 0; 7; 1] [{| capacity := 1 |}; {| capacity := 1 |}]
              [{| student1 := 0; student2 := 1 |}; {| student1 := 0; student2 := 1 |};
               {| student1 := 1; student2 := 3 |}]).
Proof.
  assert (H : Forall (inRange [0; 0; 7; 1])
    [{| student1 := 0; student2 := 1 |}; {| student1 := 0; student2 := 1 |};
     {| student1 := 1; student2 := 3 |}]).
  { repeat constructor; simpl; lia. }
  split; [exact H|]. split; [reflexivity|].
  apply (evaluateSolution_is_specPenalty _ _ _ H); vm_compute; discriminate.
Defined.

(** C9.  Every container access of [evaluateSolution] is inside its
    container: the counting loop goes through for any assignment and any
    usage vector, its accesses being guarded; the capacity loop goes
    through on the usage vector the counting loop leaves; and where each
    pair names two students of the assignment the whole evaluation returns
    a value. *)
Theorem evaluateSolution_in_bounds :
  (∀ a roomUsage, is_Some (countRooms a roomUsage))
  ∧ (∀ a rooms,
       is_Some (countRooms a (replicate (length rooms) 0)
                ≫= λ roomUsage, capacityLoop rooms roomUsage (seq 0 (length rooms)) 0))
  ∧ (∀ a rooms incs,
       Forall (inRange a) incs → is_Some (evaluateSolution a rooms incs)).
Proof.
  split_and!.
  - intros a. induction a as [|r a IH]; intros u; simpl; [done|].
    destruct (bool_decide (0 ≤ r) && bool_decide (r < static_cast_int (length u))) eqn:Hg;
      [|apply IH].
    apply andb_prop in Hg as [H0 H1]. apply bool_decide_eq_true in H0, H1.
    pose proof (wrap_int_of_nat_le (length u)). unfold static_cast_int in H1.
    destruct (at_int_Some u r ltac:(lia)) as [x ->]. simpl.
    rewrite set_int_Some by lia. simpl. apply IH.
  - intros a rooms. rewrite countRooms_usage. simpl.
    rewrite capacityLoop_sum; [done | unfold is_int, INT_MIN, INT_MAX; lia |].
    apply Forall_forall. intros i Hi. apply elem_of_seq in Hi. lia.
  - intros a rooms incs H. rewrite evaluateSolution_eq, decide_True by done. done.
Qed.

Lemma evaluateSolution_in_bounds_witness :
  Forall (inRange [0; 1; 0]) [{| student1 := 0; student2 := 2 |}]
  ∧ is_Some (evaluateSolution [0; 1; 0] [{| capacity := 1 |}; {| capacity := 1 |}]
               [{| student1 := 0; student2 := 2 |}]).
Proof.
  assert (H : Forall (inRange [0; 1; 0]) [{| student1 := 0; student2 := 2 |}]).
  { repeat constructor; simpl; lia. }
  split; [exact H|].
  exact (proj2 (proj2 evaluateSolution_in_bounds) [0; 1; 0] _ _ H).
Defined.

(** C4, as the specification words it, fails for the same reason as C1:
    the assignment below has only valid room indices, yet the pair (0,1)
    names a student it does not have and the evaluation returns no value,
    so none that is at least 0. *)
Lemma evaluateSolution_valid_without_value :
  validAssignment [0] [{| capacity := 1 |}]
  ∧ ¬ ∃ v, evaluateSolution [0] [{| capacity := 1 |}]
             [{| student1 := 0; student2 := 1 |}] = Some v ∧ 0 ≤ v.
Proof.
  split.
  - repeat constructor; simpl; lia.
  - intros (v & H & _). discriminate H.
Qed.

(** C4 (amended).  For every assignment whose entries are valid room
    indices and every incompatibility list whose pairs name students of
    the assignment, where the sizes and the exact penalty fit an [int],
    [evaluateSolution] returns a value that is at least 0, and it is 0 if
    and only if no room has more occupants than its capacity and no pair
    has its two students in the same room. *)
Theorem evaluateSolution_nonneg_zero_iff a rooms incs :
  validAssignment a rooms →
  Forall (inRange a) incs →
  Z.of_nat (length rooms) ≤ INT_MAX →
  Z.of_nat (length a) ≤ INT_MAX →
  specPenalty a rooms incs ≤ INT_MAX →
  ∃ v, evaluateSolution a rooms incs = Some v
       ∧ 0 ≤ v
       ∧ (v = 0 ↔ (∀ i r, rooms !! i = Some r → occupancy a i ≤ capacity r)
                  ∧ (∀ inc, inc ∈ incs → sameRoom a inc = false)).
Proof.
  intros _ Hincs Hn Ha Hsum. exists (specPenalty a rooms incs).
  split; [by apply evaluateSolution_exact|].
  split; [apply specPenalty_nonneg|].
  unfold specPenalty.
  pose proof (roomPenalties_nonneg a rooms (seq 0 (length rooms))) as Hr.
  pose proof (incompatPenalties_nonneg a incs) as Hi.
  pose proof (sumZ_nonneg _ Hr). pose proof (sumZ_nonneg _ Hi).
  split.
  - intros Hz. split.
    + intros i r Hir.
      assert (Hzero : roomPenalty a rooms i = 0).
      { eapply (proj1 (Forall_forall _ _) (sumZ_zero _ Hr ltac:(lia))).
        apply list_elem_of_fmap_2, elem_of_seq.
        apply lookup_lt_Some in Hir. lia. }
      unfold roomPenalty in Hzero. rewrite Hir in Hzero. simpl in Hzero.
      unfold overflowPenalty in Hzero. case_bool_decide; lia.
    + intros inc Hinc.
      assert (Hzero : incompatPenalty a inc = 0).
      { eapply (proj1 (Forall_forall _ _) (sumZ_zero _ Hi ltac:(lia))).
        by apply list_elem_of_fmap_2. }
      unfold incompatPenalty in Hzero. by destruct (sameRoom a inc).
  - intros [Hrooms Hpairs].
    rewrite (sumZ_fmap_zero (roomPenalty a rooms)), (sumZ_fmap_zero (incompatPenalty a));
      [done | |].
    + intros inc Hinc. unfold incompatPenalty. by rewrite Hpairs.
    + intros i _. unfold roomPenalty.
      destruct (rooms !! i) as [r|] eqn:Hir; simpl; [|done].
      unfold overflowPenalty. rewrite bool_decide_eq_false_2; [done|].
      specialize (Hrooms i r Hir). lia.
Qed.

Lemma evaluateSolution_nonneg_zero_iff_witness :
  validAssignment [0; 1; 0] [{| capacity := 2 |}; {| capacity := 1 |}]
  ∧ Forall (inRange [0; 1; 0]) [{| student1 := 0; student2 := 1 |}]
  ∧ ∃ v, evaluateSolution [0; 1; 0] [{| capacity := 2 |}; {| capacity := 1 |}]
           [{| student1 := 0; student2 := 1 |}] = Some v
         ∧ 0 ≤ v
         ∧ (v = 0 ↔ (∀ i r, [{| capacity := 2 |}; {| capacity := 1 |}] !! i = Some r
                            → occupancy [0; 1; 0] i ≤ capacity r)
                    ∧ (∀ inc, inc ∈ [{| student1 := 0; student2 := 1 |}]
                              → sameRoom [0; 1; 0] inc = false)).
Proof.
  assert (Hv : validAssignment [0; 1; 0] [{| capacity := 2 |}; {| capacity := 1 |}]).
  { repeat constructor; simpl; lia. }
  assert (Hi : Forall (inRange [0; 1; 0]) [{| student1 := 0; student2 := 1 |}]).
  { repeat constructor; simpl; lia. }
  split; [exact Hv|]. split; [exact Hi|].
  apply (evaluateSolution_nonneg_zero_iff _ _ _ Hv Hi); vm_compute; discriminate.
Defined.

(** ** The register *)

(** C2.  The update replaces the stored fitness and the stored assignment
    together exactly when the candidate fitness is strictly less than the
    stored one; when it is equal or greater, and so on a tie, the register
    is left as it was. *)
Theorem criticalSection_replaces_iff_less f a g :
  (f < globalBestFitness g →
     criticalSection f a g = {| globalBestFitness := f; globalBestAssignment := a |})
  ∧ (globalBestFitness g ≤ f → criticalSection f a g = g)
  ∧ (f = globalBestFitness g → criticalSection f a g = g)
  ∧ (criticalSection f a g ≠ g → f < globalBestFitness g).
Proof.
  split_and!.
  - apply criticalSection_lt.
  - apply criticalSection_ge.
  - intros ->. by apply criticalSection_ge.
  - intros Hne. destruct (decide (f < globalBestFitness g)); [done|].
    destruct Hne. apply criticalSection_ge. lia.
Qed.

Lemma criticalSection_replaces_iff_less_witness :
  criticalSection 5 [0; 1] initialRegister
  = {| globalBestFitness := 5; globalBestAssignment := [0; 1] |}
  ∧ criticalSection 5 [1; 1] {| globalBestFitness := 5; globalBestAssignment := [0; 1] |}
    = {| globalBestFitness := 5; globalBestAssignment := [0; 1] |}
  ∧ criticalSection 9 [1; 1] {| globalBestFitness := 5; globalBestAssignment := [0; 1] |}
    = {| globalBestFitness := 5; globalBestAssignment := [0; 1] |}
  ∧ 5 < globalBestFitness initialRegister.
Proof.
  split_and!.
  - destruct (criticalSection_replaces_iff_less 5 [0; 1] initialRegister) as (H & _).
    apply H. reflexivity.
  - destruct (criticalSection_replaces_iff_less 5 [1; 1]
                {| globalBestFitness := 5; globalBestAssignment := [0; 1] |})
      as (_ & _ & H & _).
    apply H. reflexivity.
  - destruct (criticalSection_replaces_iff_less 9 [1; 1]
                {| globalBestFitness := 5; globalBestAssignment := [0; 1] |})
      as (_ & H & _).
    apply H. simpl. lia.
  - destruct (criticalSection_replaces_iff_less 5 [0; 1] initialRegister)
      as (_ & _ & _ & H).
    apply H. discriminate.
Defined.

(** C3.  The stored fitness never increases: after an update it is the
    minimum of its previous value and the fitness of the candidate; after
    any further attempts it is at most what it was after the earlier ones;
    and so it is along any run of the workers. *)
Theorem fitness_never_increases :
  (∀ f a g,
     globalBestFitness (criticalSection f a g) = Z.min (globalBestFitness g) f)
  ∧ (∀ us1 us2 g,
       globalBestFitness (attempts (us1 ++ us2) g) ≤ globalBestFitness (attempts us1 g))
  ∧ (∀ rooms incs ns schedule ws g ws' g',
       runSchedule rooms incs ns schedule (ws, g) = Some (ws', g') →
       globalBestFitness g' ≤ globalBestFitness g).
Proof.
  split_and!.
  - apply criticalSection_fitness.
  - intros us1 us2 g. rewrite attempts_app. apply attempts_le.
  - intros rooms incs ns schedule ws g ws' g' Hrun.
    set (Q := λ g1, globalBestFitness g1 ≤ globalBestFitness g).
    destruct (runSchedule_progress rooms incs ns (λ _, True) Q Q) with
      (schedule := schedule) (ws0 := ws) (ws := ws) (g := g) (ws' := ws') (g' := g')
      as (_ & HQ & _); try done.
    + intros w g1 w' g1' _ HQ1 Hi.
      apply iteration_inv in Hi as (f & _ & -> & _).
      unfold Q in *. rewrite criticalSection_fitness. lia.
    + by apply Forall_forall.
    + unfold Q. lia.
    + intros _. unfold Q. lia.
Qed.

Lemma fitness_never_increases_witness :
  runSchedule [{| capacity := 5 |}] [{| student1 := 0; student2 := 1 |}] 3 [0%nat; 0%nat]
    ([{| rng := λ _, 0; calls := 0; currentAssignment := [0; 0; 0]; todo := 2 |}],
     initialRegister)
  = Some ([{| rng := λ _, 0; calls := 6; currentAssignment := [0; 0; 0]; todo := 0 |}],
          {| globalBestFitness := 5; globalBestAssignment := [0; 0; 0] |})
  ∧ 5 ≤ globalBestFitness initialRegister.
Proof.
  assert (H : runSchedule [{| capacity := 5 |}] [{| student1 := 0; student2 := 1 |}] 3 [0%nat; 0%nat]
    ([{| rng := λ _, 0; calls := 0; currentAssignment := [0; 0; 0]; todo := 2 |}],
     initialRegister)
  = Some ([{| rng := λ _, 0; calls := 6; currentAssignment := [0; 0; 0]; todo := 0 |}],
          {| globalBestFitness := 5; globalBestAssignment := [0; 0; 0] |}))
    by reflexivity.
  split; [exact H|].
  exact (proj2 (proj2 fitness_never_increases) _ _ _ _ _ _ _ _ H).
Defined.

(** C6.  In every state a run of the workers reaches from the initial
    register, a stored assignment that is not empty evaluates, on the rooms
    and pairs of the run, to exactly the stored fitness. *)
Theorem register_holds_its_candidate rooms incs ns schedule ws ws' g :
  runSchedule rooms incs ns schedule (ws, initialRegister) = Some (ws', g) →
  globalBestAssignment g ≠ [] →
  evaluateSolution (globalBestAssignment g) rooms incs = Some (globalBestFitness g).
Proof.
  intros Hrun Hne.
  set (Q := λ g1, g1 = initialRegister ∨ holdsCandidate rooms incs g1).
  destruct (runSchedule_progress rooms incs ns (λ _, True) Q Q) with
    (schedule := schedule) (ws0 := ws) (ws := ws) (g := initialRegister)
    (ws' := ws') (g' := g) as (_ & [->|HQ] & _); try done.
  - intros w g1 w' g1' _ HQ1 Hi.
    apply iteration_inv in Hi as (f & Hf & -> & _).
    destruct (criticalSection_holdsCandidate rooms incs f (currentAssignment w') g1 Hf HQ1)
      as [H|[H _]]; [by right | by left].
  - by apply Forall_forall.
  - by left.
  - intros _. by left.
Qed.

Lemma register_holds_its_candidate_witness :
  runSchedule [{| capacity := 5 |}] [{| student1 := 0; student2 := 1 |}] 3 [0%nat]
    ([{| rng := λ _, 0; calls := 0; currentAssignment := [0; 0; 0]; todo := 2 |}],
     initialRegister)
  = Some ([{| rng := λ _, 0; calls := 3; currentAssignment := [0; 0; 0]; todo := 1 |}],
          {| globalBestFitness := 5; globalBestAssignment := [0; 0; 0] |})
  ∧ evaluateSolution [0; 0; 0] [{| capacity := 5 |}]
      [{| student1 := 0; student2 := 1 |}] = Some 5.
Proof.
  assert (H : runSchedule [{| capacity := 5 |}] [{| student1 := 0; student2 := 1 |}] 3 [0%nat]
    ([{| rng := λ _, 0; calls := 0; currentAssignment := [0; 0; 0]; todo := 2 |}],
     initialRegister)
  = Some ([{| rng := λ _, 0; calls := 3; currentAssignment := [0; 0; 0]; todo := 1 |}],
          {| globalBestFitness := 5; globalBestAssignment := [0; 0; 0] |}))
    by reflexivity.
  split; [exact H|].
  apply (register_holds_its_candidate _ _ _ _ _ _ _ H). discriminate.
Defined.

(** ** The entry point *)

(** C5.  [main] does not do what the claim asks of it.  With the argument
    0 it rejects nothing: it starts no thread, the search ends with the
    register in its initial state, and [main] goes on to the report, where
    it reads the room of student 0 in the empty best assignment, outside
    the vector.  The run has undefined behaviour there; it is not a
    start-up error with an exit status other than 0. *)
Lemma main_zero_threads_not_rejected :
  spawn iterationsPerThread mainRooms numStudents (threadCountOf (Some 0)) (λ _ _, 0)
  = Some []
  ∧ search (threadCountOf (Some 0)) (λ _ _, 0) [] = Some ([], initialRegister)
  ∧ at_int (globalBestAssignment initialRegister) 0 = None
  ∧ report (threadCountOf (Some 0)) initialRegister = None
  ∧ main (Some 0) (λ _ _, 0) [] = Undefined
  ∧ ¬ failsFast (main (Some 0) (λ _ _, 0) []).
Proof.
  assert (H : main (Some 0) (λ _ _, 0) [] = Undefined) by (vm_compute; reflexivity).
  split_and!; [vm_compute; reflexivity .. | exact H |].
  intros (status & r & Hm & _). rewrite H in Hm. discriminate Hm.
Qed.

(** ** Relabelling *)



(** ** The scenario with one room *)

(** C8.  With one room of capacity 5, three students and the pair (0,1),
    every candidate the generator can produce evaluates to exactly 5, and
    so, for any number of iterations that is at least 1, a thread on its
    own and any number of threads in any interleaving leave the fitness 5
    in the register. *)
Theorem oneRoom_fitness_is_5 :
  (∀ candidate,
     length candidate = 3%nat →
     Forall (λ r, 0 ≤ r ≤ roomDistMax oneRoom) candidate →
     evaluateSolution candidate oneRoom onePair = Some 5)
  ∧ (∀ iterations draw,
       1 ≤ iterations →
       (∀ k, 0 ≤ draw k ≤ roomDistMax oneRoom) →
       ∃ g, monteCarloThread iterations oneRoom onePair 3 draw initialRegister = Some g
            ∧ globalBestFitness g = 5)
  ∧ (∀ iterations threadCount rngs schedule,
       1 ≤ iterations → 1 ≤ threadCount →
       (∀ t k, 0 ≤ rngs t k ≤ roomDistMax oneRoom) →
       ∃ ws g, runThreads oneRoom onePair 3 iterations threadCount rngs schedule
               = Some (ws, g)
               ∧ pending ws = O ∧ globalBestFitness g = 5).
Proof.
  split_and!.
  - intros candidate Hlen Hcand. by rewrite (oneRoom_candidate candidate).
  - intros iterations draw Hit Hdraw. unfold monteCarloThread.
    rewrite newWorker_Some by done.
    set (w0 := {| rng := draw; calls := 0;
                  currentAssignment := replicate (Z.to_nat 3) 0;
                  todo := Z.to_nat iterations |}).
    assert (Hn : S (pred (Z.to_nat iterations)) = Z.to_nat iterations) by lia.
    destruct (iterate_result oneRoom onePair 3 draw
                (λ g, globalBestFitness g = 5)
                (λ g, g = initialRegister ∨ globalBestFitness g = 5)
                (pred (Z.to_nat iterations)) w0 initialRegister)
      as (w' & g' & Hrun & Hg'); try done.
    + by right.
    + intros w g w1 g1 Hw Hrng HQ Hi.
      eapply oneRoom_iteration; [done | | done | done].
      intros k. rewrite Hrng. apply Hdraw.
    + apply oneRoom_pairsBelow.
    + by left.
    + rewrite Hn in Hrun. exists g'. split; [|done].
      change (snd <$> iterate oneRoom onePair 3 (Z.to_nat iterations) w0 initialRegister
              = Some g').
      by rewrite Hrun.
  - intros iterations threadCount rngs schedule Hit Htc Hrngs.
    apply (runThreads_result oneRoom onePair 3 iterations threadCount rngs schedule
             (λ g, globalBestFitness g = 5)
             (λ g, g = initialRegister ∨ globalBestFitness g = 5)); try done.
    + by left.
    + by right.
    + intros w g w1 g1 Hw [t Hrng] HQ Hi.
      eapply oneRoom_iteration; [done | | done | done].
      intros k. rewrite Hrng. apply Hrngs.
    + apply oneRoom_pairsBelow.
Qed.

Lemma oneRoom_fitness_is_5_witness :
  (∀ t k : nat, 0 ≤ (λ _ _ : nat, 0) t k ≤ roomDistMax oneRoom)
  ∧ evaluateSolution [0; 0; 0] oneRoom onePair = Some 5
  ∧ (∃ g, monteCarloThread 4 oneRoom onePair 3 (λ _, 0) initialRegister = Some g
          ∧ globalBestFitness g = 5)
  ∧ (∃ ws g, runThreads oneRoom onePair 3 2 2 (λ _ _, 0) [1%nat; 0%nat; 1%nat]
             = Some (ws, g)
             ∧ pending ws = O ∧ globalBestFitness g = 5).
Proof.
  assert (H : ∀ t k : nat, 0 ≤ (λ _ _ : nat, 0) t k ≤ roomDistMax oneRoom).
  { intros t k. vm_compute. split; discriminate. }
  split; [exact H|]. split_and!.
  - apply (proj1 oneRoom_fitness_is_5 [0; 0; 0]); [reflexivity|].
    repeat constructor; vm_compute; discriminate.
  - exact (proj1 (proj2 oneRoom_fitness_is_5) 4 (λ _, 0) ltac:(lia) (H O)).
  - exact (proj2 (proj2 oneRoom_fitness_is_5) 2 2 (λ _ _, 0) [1%nat; 0%nat; 1%nat]
             ltac:(lia) ltac:(lia) H).
Defined.

(** ** The bound on the fitness *)

(** C10, as worded, fails: [capacity] is an [int] that nothing keeps from
    being negative, and a room of capacity -1 is over its capacity with no
    occupant at all, so the evaluation of the empty assignment returns 10,
    above the bound 10 * 0 + 5 * 0. *)
Lemma evaluateSolution_negative_capacity :
  evaluateSolution [] [{| capacity := -1 |}] [] = Some 10
  ∧ ¬ ∃ v, evaluateSolution [] [{| capacity := -1 |}] [] = Some v
           ∧ v ≤ 10 * Z.of_nat (length (@nil Z))
                 + 5 * Z.of_nat (length (@nil Incompatibility)).
Proof.
  assert (He : evaluateSolution [] [{| capacity := -1 |}] [] = Some 10) by reflexivity.
  split; [exact He|]. intros (v & Hv & Hle).
  rewrite He in Hv. injection Hv as <-. simpl in Hle. lia.
Qed.

(** C10 (amended).  For every assignment, every room list whose
    capacities are not negative and every incompatibility list whose pairs
    name students of the assignment, where 10 * (length of the assignment)
    + 5 * (number of pairs) is below [INT_MAX], [evaluateSolution] returns
    at most that bound, hence less than the initial [INT_MAX] of the
    register; so with at least one worker running at least one iteration
    the register ends with a fitness below [INT_MAX] and the candidate,
    one room per student, that evaluates to it. *)
Theorem evaluateSolution_below_sentinel :
  (∀ a rooms incs,
     Forall (λ r, 0 ≤ capacity r) rooms →
     Forall (inRange a) incs →
     Z.of_nat (length rooms) ≤ INT_MAX →
     10 * Z.of_nat (length a) + 5 * Z.of_nat (length incs) < INT_MAX →
     ∃ v, evaluateSolution a rooms incs = Some v
          ∧ v ≤ 10 * Z.of_nat (length a) + 5 * Z.of_nat (length incs)
          ∧ v < INT_MAX)
  ∧ (∀ rooms incs ns iterations threadCount rngs schedule,
       Forall (λ r, 0 ≤ capacity r) rooms →
       rooms ≠ [] → Z.of_nat (length rooms) ≤ INT_MAX →
       0 ≤ ns → pairsBelow ns incs →
       10 * ns + 5 * Z.of_nat (length incs) < INT_MAX →
       1 ≤ threadCount → 1 ≤ iterations →
       ∃ ws g, runThreads rooms incs ns iterations threadCount rngs schedule
               = Some (ws, g)
               ∧ globalBestFitness g < INT_MAX
               ∧ evaluateSolution (globalBestAssignment g) rooms incs
                 = Some (globalBestFitness g)
               ∧ length (globalBestAssignment g) = Z.to_nat ns).
Proof.
  split; [apply evaluateSolution_le|].
  intros rooms incs ns iterations threadCount rngs schedule
    Hcap Hne Hn Hns Hincs Hsize Htc Hit.
  set (P := λ g, globalBestFitness g < INT_MAX
                 ∧ holdsCandidate rooms incs g
                 ∧ length (globalBestAssignment g) = Z.to_nat ns).
  destruct (runThreads_result rooms incs ns iterations threadCount rngs schedule
              P (λ g, g = initialRegister ∨ P g))
    as (ws & g & Hrun & _ & HP); try done.
  - by left.
  - by right.
  - intros w g w1 g1 Hw _ HQ Hi.
    apply iteration_exact in Hi as (f & Hf & ->); [|done..].
    set (candidate := rng w <$> seq (calls w) (Z.to_nat ns)) in *.
    assert (Hlen : length candidate = Z.to_nat ns)
      by (unfold candidate; by rewrite length_fmap, length_seq).
    destruct (evaluateSolution_le candidate rooms incs) as (v & Hv & _ & Hlt);
      try done.
    { eapply Forall_impl; [exact Hincs|]. intros inc [H1 H2].
      unfold inRange. rewrite Hlen. lia. }
    { rewrite Hlen. lia. }
    rewrite Hf in Hv. injection Hv as <-.
    unfold criticalSection. case_bool_decide as Hless; [done|].
    destruct HQ as [->|HPg]; [|done]. simpl in Hless. lia.
  - by apply roomDistMax_nonempty.
  - by exists ws, g.
Qed.

Lemma evaluateSolution_below_sentinel_witness :
  Forall (λ r, 0 ≤ capacity r) [{| capacity := 1 |}; {| capacity := 1 |}]
  ∧ Forall (inRange [0; 0; 1]) [{| student1 := 0; student2 := 1 |}]
  ∧ pairsBelow 3 [{| student1 := 0; student2 := 1 |}]
  ∧ (∃ v, evaluateSolution [0; 0; 1] [{| capacity := 1 |}; {| capacity := 1 |}]
            [{| student1 := 0; student2 := 1 |}] = Some v
          ∧ v ≤ 10 * Z.of_nat (length [0; 0; 1])
                + 5 * Z.of_nat (length [{| student1 := 0; student2 := 1 |}])
          ∧ v < INT_MAX)
  ∧ (∃ ws g, runThreads [{| capacity := 1 |}; {| capacity := 1 |}]
               [{| student1 := 0; student2 := 1 |}] 3 2 2
               (λ t k, Z.of_nat ((t + k) `mod` 2)) [1%nat; 0%nat]
             = Some (ws, g)
             ∧ globalBestFitness g < INT_MAX
             ∧ evaluateSolution (globalBestAssignment g)
                 [{| capacity := 1 |}; {| capacity := 1 |}]
                 [{| student1 := 0; student2 := 1 |}] = Some (globalBestFitness g)
             ∧ length (globalBestAssignment g) = Z.to_nat 3).
Proof.
  assert (Hc : Forall (λ r, 0 ≤ capacity r) [{| capacity := 1 |}; {| capacity := 1 |}]).
  { repeat constructor; simpl; lia. }
  assert (Hi : Forall (inRange [0; 0; 1]) [{| student1 := 0; student2 := 1 |}]).
  { repeat constructor; simpl; lia. }
  assert (Hp : pairsBelow 3 [{| student1 := 0; student2 := 1 |}]).
  { repeat constructor; simpl; lia. }
  split; [exact Hc|]. split; [exact Hi|]. split; [exact Hp|]. split.
  - apply (proj1 evaluateSolution_below_sentinel _ _ _ Hc Hi);
      vm_compute; reflexivity || discriminate.
  - apply (proj2 evaluateSolution_below_sentinel _ _ 3 2 2 _ _ Hc); try exact Hp;
      try discriminate; vm_compute; reflexivity || discriminate.
Defined.

(** * Further properties of the code *)

(** ** [evaluateSolution] *)

(** X1.  A pair is unordered: exchanging [student1] and [student2] in
    every pair changes nothing to what [evaluateSolution] does, whether it
    returns a penalty or reads outside the assignment. *)
Theorem evaluateSolution_swapPair a rooms incs :
  evaluateSolution a rooms (swapPair <$> incs) = evaluateSolution a rooms incs.
Proof.
  rewrite !evaluateSolution_eq. rewrite <- list_fmap_compose.
  rewrite (sumZ_fmap_ext (incompatPenalty a ∘ swapPair) (incompatPenalty a)).
  - apply decide_ext. rewrite Forall_fmap. apply Forall_proper; [|done].
    intros inc. apply inRange_swapPair.
  - intros inc _. unfold incompatPenalty. simpl. by rewrite sameRoom_swapPair.
Qed.

(** X2.  The order of the incompatibility pairs does not matter: on a
    reordered list [evaluateSolution] does the same. *)
Theorem evaluateSolution_pairs_reordered a rooms incs incs' :
  incs' ≡ₚ incs →
  evaluateSolution a rooms incs' = evaluateSolution a rooms incs.
Proof.
  intros H. rewrite !evaluateSolution_eq.
  rewrite (sumZ_Permutation _ _ (fmap_Permutation (incompatPenalty a) _ _ H)).
  apply decide_ext. by rewrite H.
Qed.

Lemma evaluateSolution_pairs_reordered_witness :
  [{| student1 := 1; student2 := 2 |}; {| student1 := 0; student2 := 1 |}]
  ≡ₚ [{| student1 := 0; student2 := 1 |}; {| student1 := 1; student2 := 2 |}]
  ∧ evaluateSolution [0; 0; 1] [{| capacity := 1 |}; {| capacity := 1 |}]
      [{| student1 := 1; student2 := 2 |}; {| student1 := 0; student2 := 1 |}]
    = evaluateSolution [0; 0; 1] [{| capacity := 1 |}; {| capacity := 1 |}]
        [{| student1 := 0; student2 := 1 |}; {| student1 := 1; student2 := 2 |}].
Proof.
  assert (H : [{| student1 := 1; student2 := 2 |}; {| student1 := 0; student2 := 1 |}]
              ≡ₚ [{| student1 := 0; student2 := 1 |}; {| student1 := 1; student2 := 2 |}])
    by apply perm_swap.
  split; [exact H|].
  exact (evaluateSolution_pairs_reordered [0; 0; 1] _ _ _ H).
Defined.

(** X3.  The capacity penalty depends on how many students each room
    gets, not on which ones: without pairs, [evaluateSolution] returns the
    same on any reordering of the assignment. *)
Theorem evaluateSolution_students_reordered a a' rooms :
  a' ≡ₚ a →
  evaluateSolution a' rooms [] = evaluateSolution a rooms [].
Proof.
  intros H. rewrite !evaluateSolution_no_pairs. do 2 f_equal.
  apply codePenalty_ext. intros i _. by apply occupancy_Permutation.
Qed.

Lemma evaluateSolution_students_reordered_witness :
  [1; 0; 0] ≡ₚ [0; 0; 1]
  ∧ evaluateSolution [1; 0; 0] [{| capacity := 1 |}; {| capacity := 1 |}] []
    = evaluateSolution [0; 0; 1] [{| capacity := 1 |}; {| capacity := 1 |}] [].
Proof.
  assert (H : [1; 0; 0] ≡ₚ [0; 0; 1]).
  { etrans; [apply perm_swap|]. apply perm_skip, perm_swap. }
  split; [exact H|].
  exact (evaluateSolution_students_reordered _ _ _ H).
Defined.

(** X4.  Entries that are no room index are ignored by the capacity
    penalty: without pairs, removing them from the assignment leaves the
    result of [evaluateSolution] as it was. *)
Theorem evaluateSolution_drops_invalid_entries a rooms :
  evaluateSolution (filter (λ room, 0 ≤ room < Z.of_nat (length rooms)) a) rooms []
  = evaluateSolution a rooms [].
Proof.
  rewrite !evaluateSolution_no_pairs. do 2 f_equal.
  apply codePenalty_ext. intros i Hi. by apply occupancy_filter_valid.
Qed.

(** X5.  The penalty is the [int] sum of two independent parts: where the
    pairs name students of the assignment, [evaluateSolution] on rooms and
    pairs returns the sum of what it returns on the rooms without pairs and
    on the pairs without rooms. *)
Theorem evaluateSolution_splits a rooms incs :
  Forall (inRange a) incs →
  ∃ p q, evaluateSolution a rooms [] = Some p
         ∧ evaluateSolution a [] incs = Some q
         ∧ evaluateSolution a rooms incs = Some (wrap_int (p + q)).
Proof.
  intros H. eexists _, _.
  split; [apply evaluateSolution_no_pairs|].
  split; [by apply evaluateSolution_no_rooms|].
  rewrite evaluateSolution_eq, decide_True by done. by rewrite wrap_int_add.
Qed.

Lemma evaluateSolution_splits_witness :
  Forall (inRange [0; 0; 1]) [{| student1 := 0; student2 := 1 |}]
  ∧ ∃ p q, evaluateSolution [0; 0; 1] [{| capacity := 1 |}; {| capacity := 1 |}] []
           = Some p
           ∧ evaluateSolution [0; 0; 1] [] [{| student1 := 0; student2 := 1 |}] = Some q
           ∧ evaluateSolution [0; 0; 1] [{| capacity := 1 |}; {| capacity := 1 |}]
               [{| student1 := 0; student2 := 1 |}] = Some (wrap_int (p + q)).
Proof.
  assert (H : Forall (inRange [0; 0; 1]) [{| student1 := 0; student2 := 1 |}]).
  { repeat constructor; simpl; lia. }
  split; [exact H|].
  exact (evaluateSolution_splits [0; 0; 1] _ _ H).
Defined.

(** X6.  More room never costs more: where each capacity of [rooms'] is
    at least that of the same room in [rooms], and the evaluation on
    [rooms] is exact, the penalty on [rooms'] is at most the penalty on
    [rooms]. *)
Theorem evaluateSolution_antitone_in_capacity a rooms rooms' incs :
  Forall2 (λ r r', capacity r ≤ capacity r') rooms rooms' →
  Forall (inRange a) incs →
  Z.of_nat (length rooms) ≤ INT_MAX →
  Z.of_nat (length a) ≤ INT_MAX →
  specPenalty a rooms incs ≤ INT_MAX →
  ∃ v v', evaluateSolution a rooms incs = Some v
          ∧ evaluateSolution a rooms' incs = Some v'
          ∧ v' ≤ v.
Proof.
  intros Hcap Hincs Hn Ha Hsum.
  assert (Hlen : length rooms' = length rooms) by (symmetry; by eapply Forall2_length).
  assert (Hle : specPenalty a rooms' incs ≤ specPenalty a rooms incs).
  { unfold specPenalty. rewrite Hlen.
    pose proof (sumZ_fmap_le (roomPenalty a rooms') (roomPenalty a rooms)
                  (seq 0 (length rooms))
                  (λ i _, roomPenalty_antitone a rooms rooms' i Hcap)). lia. }
  exists (specPenalty a rooms incs), (specPenalty a rooms' incs).
  split; [by apply evaluateSolution_exact|].
  split; [|done]. apply evaluateSolution_exact; try done; [by rewrite Hlen | lia].
Qed.

Lemma evaluateSolution_antitone_in_capacity_witness :
  Forall2 (λ r r', capacity r ≤ capacity r')
    [{| capacity := 0 |}; {| capacity := 1 |}] [{| capacity := 1 |}; {| capacity := 1 |}]
  ∧ Forall (inRange [0; 0; 1]) [{| student1 := 0; student2 := 1 |}]
  ∧ ∃ v v', evaluateSolution [0; 0; 1] [{| capacity := 0 |}; {| capacity := 1 |}]
              [{| student1 := 0; student2 := 1 |}] = Some v
            ∧ evaluateSolution [0; 0; 1] [{| capacity := 1 |}; {| capacity := 1 |}]
                [{| student1 := 0; student2 := 1 |}] = Some v'
            ∧ v' ≤ v.
Proof.
  assert (Hc : Forall2 (λ r r', capacity r ≤ capacity r')
    [{| capacity := 0 |}; {| capacity := 1 |}] [{| capacity := 1 |}; {| capacity := 1 |}]).
  { repeat constructor; simpl; lia. }
  assert (Hi : Forall (inRange [0; 0; 1]) [{| student1 := 0; student2 := 1 |}]).
  { repeat constructor; simpl; lia. }
  split; [exact Hc|]. split; [exact Hi|].
  apply (evaluateSolution_antitone_in_capacity _ _ _ _ Hc Hi); vm_compute; discriminate.
Defined.

(** X7.  Too few places cost at least 10 each: for an assignment whose
    entries are valid room indices, where the evaluation is exact, the
    penalty is at least 10 * (number of students - total capacity). *)
Theorem evaluateSolution_overcrowding_bound a rooms incs :
  validAssignment a rooms →
  Forall (inRange a) incs →
  Z.of_nat (length rooms) ≤ INT_MAX →
  Z.of_nat (length a) ≤ INT_MAX →
  specPenalty a rooms incs ≤ INT_MAX →
  ∃ v, evaluateSolution a rooms incs = Some v
       ∧ 10 * (Z.of_nat (length a) - totalCapacity rooms) ≤ v.
Proof.
  intros Hv Hincs Hn Ha Hsum. exists (specPenalty a rooms incs).
  split; [by apply evaluateSolution_exact|].
  unfold specPenalty.
  pose proof (roomPenalty_sum_ge a rooms Hv).
  pose proof (sumZ_nonneg _ (incompatPenalties_nonneg a incs)). lia.
Qed.

Lemma evaluateSolution_overcrowding_bound_witness :
  validAssignment [0; 1; 1] [{| capacity := 1 |}; {| capacity := 1 |}]
  ∧ Forall (inRange [0; 1; 1]) []
  ∧ ∃ v, evaluateSolution [0; 1; 1] [{| capacity := 1 |}; {| capacity := 1 |}] [] = Some v
         ∧ 10 * (Z.of_nat (length [0; 1; 1])
                 - totalCapacity [{| capacity := 1 |}; {| capacity := 1 |}]) ≤ v.
Proof.
  assert (Hv : validAssignment [0; 1; 1] [{| capacity := 1 |}; {| capacity := 1 |}]).
  { repeat constructor; simpl; lia. }
  assert (Hi : Forall (inRange [0; 1; 1]) []) by constructor.
  split; [exact Hv|]. split; [exact Hi|].
  apply (evaluateSolution_overcrowding_bound _ _ _ Hv Hi); vm_compute; discriminate.
Defined.

(** X8.  With no student: where no capacity is negative the penalty of
    the empty assignment without pairs is 0, for any number of rooms; and
    with any pair at all the evaluation reads outside the empty assignment
    and returns nothing. *)
Theorem evaluateSolution_no_student :
  (∀ rooms, Forall (λ r, 0 ≤ capacity r) rooms → evaluateSolution [] rooms [] = Some 0)
  ∧ (∀ rooms inc incs, evaluateSolution [] rooms (inc :: incs) = None).
Proof.
  split.
  - intros rooms Hcap. rewrite evaluateSolution_no_pairs.
    unfold codePenalty. rewrite sumZ_fmap_zero; [done|].
    intros i _. unfold codeTerm.
    destruct (rooms !! i) as [r|] eqn:Hr; simpl; [|done].
    assert (0 ≤ capacity r).
    { eapply (proj1 (Forall_forall _ _) Hcap), list_elem_of_lookup_2, Hr. }
    unfold usageAt. rewrite occupancy_nil. change (wrap_int 0) with 0.
    rewrite bool_decide_eq_false_2; [done|]. case_bool_decide; lia.
  - intros rooms inc incs. rewrite evaluateSolution_eq, decide_False; [done|].
    intros H. apply Forall_cons in H as [[H _] _]. simpl in H. lia.
Qed.

Lemma evaluateSolution_no_student_witness :
  Forall (λ r, 0 ≤ capacity r) [{| capacity := 0 |}; {| capacity := 3 |}]
  ∧ evaluateSolution [] [{| capacity := 0 |}; {| capacity := 3 |}] [] = Some 0.
Proof.
  assert (H : Forall (λ r, 0 ≤ capacity r) [{| capacity := 0 |}; {| capacity := 3 |}]).
  { repeat constructor; simpl; lia. }
  split; [exact H|].
  exact (proj1 evaluateSolution_no_student _ H).
Defined.



(** ** The register *)

(** X10.  The first of the best candidates wins: if an attempt is below
    the fitness the register starts with, strictly below every attempt
    before it and at most every attempt after it, the register ends with
    the fitness and the assignment of that very attempt. *)
Theorem attempts_first_minimum_wins us1 f a us2 g :
  f < globalBestFitness g →
  Forall (λ u, f < u.1) us1 →
  Forall (λ u, f ≤ u.1) us2 →
  attempts (us1 ++ (f, a) :: us2) g
  = {| globalBestFitness := f; globalBestAssignment := a |}.
Proof.
  intros Hg H1 H2. rewrite attempts_app.
  change (attempts ((f, a) :: us2) (attempts us1 g))
    with (attempts us2 (criticalSection f a (attempts us1 g))).
  rewrite criticalSection_lt by by apply attempts_below.
  by apply attempts_above.
Qed.

Lemma attempts_first_minimum_wins_witness :
  5 < globalBestFitness initialRegister
  ∧ Forall (λ u : Z * list Z, 5 < u.1) [(15, [0; 0; 0]); (10, [0; 0; 1])]
  ∧ Forall (λ u : Z * list Z, 5 ≤ u.1) [(5, [0; 1; 1]); (20, [1; 1; 1])]
  ∧ attempts ([(15, [0; 0; 0]); (10, [0; 0; 1])]
              ++ (5, [0; 1; 0]) :: [(5, [0; 1; 1]); (20, [1; 1; 1])]) initialRegister
    = {| globalBestFitness := 5; globalBestAssignment := [0; 1; 0] |}.
Proof.
  assert (H0 : 5 < globalBestFitness initialRegister) by (vm_compute; reflexivity).
  assert (H1 : Forall (λ u : Z * list Z, 5 < u.1) [(15, [0; 0; 0]); (10, [0; 0; 1])]).
  { repeat constructor; simpl; lia. }
  assert (H2 : Forall (λ u : Z * list Z, 5 ≤ u.1) [(5, [0; 1; 1]); (20, [1; 1; 1])]).
  { repeat constructor; simpl; lia. }
  split; [exact H0|]. split; [exact H1|]. split; [exact H2|].
  exact (attempts_first_minimum_wins _ 5 [0; 1; 0] _ initialRegister H0 H1 H2).
Defined.

(** X11.  After any sequence of attempts the stored fitness is at most
    every attempted fitness, and the register is the one it started from or
    holds the fitness and assignment of one of the attempts; so the stored
    fitness is the same in whatever order the attempts are made. *)
Theorem attempts_fitness_is_least :
  (∀ us g u, u ∈ us → globalBestFitness (attempts us g) ≤ u.1)
  ∧ (∀ us g,
       attempts us g = g
       ∨ ∃ u, u ∈ us
              ∧ attempts us g
                = {| globalBestFitness := u.1; globalBestAssignment := u.2 |})
  ∧ (∀ us us' g,
       us' ≡ₚ us →
       globalBestFitness (attempts us' g) = globalBestFitness (attempts us g)).
Proof.
  split_and!.
  - intros us g u. apply attempts_le_each.
  - apply attempts_member.
  - assert (Hhalf : ∀ us us' g, us' ≡ₚ us →
      globalBestFitness (attempts us' g) ≤ globalBestFitness (attempts us g)).
    { intros us us' g H.
      destruct (attempts_member us g) as [->|(u & Hu & ->)]; [apply attempts_le|].
      simpl. apply attempts_le_each. by rewrite H. }
    intros us us' g H. apply Z.le_antisymm; by apply Hhalf.
Qed.

Lemma attempts_fitness_is_least_witness :
  (10, [0; 0; 1]) ∈ [(15, [0; 0; 0]); (10, [0; 0; 1])]
  ∧ [(10, [0; 0; 1]); (15, [0; 0; 0])] ≡ₚ [(15, [0; 0; 0]); (10, [0; 0; 1])]
  ∧ globalBestFitness (attempts [(15, [0; 0; 0]); (10, [0; 0; 1])] initialRegister) ≤ 10
  ∧ globalBestFitness (attempts [(10, [0; 0; 1]); (15, [0; 0; 0])] initialRegister)
    = globalBestFitness (attempts [(15, [0; 0; 0]); (10, [0; 0; 1])] initialRegister).
Proof.
  assert (H1 : (10, [0; 0; 1]) ∈ [(15, [0; 0; 0]); (10, [0; 0; 1])]).
  { right. left. }
  assert (H2 : [(10, [0; 0; 1]); (15, [0; 0; 0])] ≡ₚ [(15, [0; 0; 0]); (10, [0; 0; 1])])
    by apply perm_swap.
  split; [exact H1|]. split; [exact H2|]. split.
  - exact (proj1 attempts_fitness_is_least _ initialRegister _ H1).
  - exact (proj2 (proj2 attempts_fitness_is_least) _ _ initialRegister H2).
Defined.

(** ** The threads *)

(** X12.  Where the rooms are not empty, the number of students is not
    negative and the pairs name students, a run of the threads goes through
    for any interleaving, each thread running all its iterations, and the
    register ends at most the fitness of every candidate of every thread;
    it is the initial one or holds one of these candidates with its
    fitness. *)
Theorem runThreads_global_minimum rooms incs ns iterations threadCount rngs schedule :
  0 ≤ roomDistMax rooms → 0 ≤ ns → pairsBelow ns incs →
  ∃ ws g,
    runThreads rooms incs ns iterations threadCount rngs schedule = Some (ws, g)
    ∧ pending ws = O
    ∧ (∀ t j, (t < Z.to_nat threadCount)%nat → (j < Z.to_nat iterations)%nat →
         ∃ f, evaluateSolution (candidateOf rngs ns t j) rooms incs = Some f
              ∧ globalBestFitness g ≤ f)
    ∧ (g = initialRegister
       ∨ ∃ t j, (t < Z.to_nat threadCount)%nat ∧ (j < Z.to_nat iterations)%nat
                ∧ evaluateSolution (candidateOf rngs ns t j) rooms incs
                  = Some (globalBestFitness g)
                ∧ globalBestAssignment g = candidateOf rngs ns t j).
Proof.
  intros Hr Hn Hincs.
  destruct (runThreads_minimum rooms incs ns iterations threadCount rngs schedule
              Hr Hn Hincs) as (ws & g & Hrun & _ & Hle & Hmem).
  exists ws, g. split_and!; try done.
  unfold runThreads in Hrun.
  destruct (spawn iterations rooms ns threadCount rngs) as [ws0|] eqn:Hs;
    simpl in Hrun; [|done].
  destruct (runSchedule rooms incs ns schedule (ws0, initialRegister))
    as [[ws1 g1]|] eqn:Hrun1; simpl in Hrun; [|done].
  destruct (spawn_Some iterations rooms ns threadCount rngs Hr Hn)
    as (ws0' & Hs' & Hws0 & _).
  rewrite Hs in Hs'. injection Hs' as <-.
  assert (Hsz0 : Forall (sizedWorker ns) ws0).
  { eapply Forall_impl; [exact Hws0|]. by intros w [? _]. }
  destruct (runSchedule_progress rooms incs ns (sizedWorker ns) (λ _, True) (λ _, True))
    with (schedule := schedule) (ws0 := ws0) (ws := ws0) (g := initialRegister)
         (ws' := ws1) (g' := g1) as (Hsz1 & _); try done.
  { intros w g0 w' g0' Hw Hi. by eapply iteration_sized. }
  destruct (joinAll_total rooms incs ns ws1 g1 Hincs Hsz1) as (ws2 & g2 & Hjoin & _ & Hp).
  rewrite Hjoin in Hrun. by injection Hrun as <- <-.
Qed.

Lemma runThreads_global_minimum_witness :
  0 ≤ roomDistMax [{| capacity := 1 |}; {| capacity := 1 |}]
  ∧ pairsBelow 3 [{| student1 := 0; student2 := 1 |}]
  ∧ ∃ ws g,
      runThreads [{| capacity := 1 |}; {| capacity := 1 |}]
        [{| student1 := 0; student2 := 1 |}] 3 2 2
        (λ t k, Z.of_nat ((t + k) `mod` 2)) [1%nat; 0%nat] = Some (ws, g)
      ∧ pending ws = O
      ∧ (∀ t j, (t < Z.to_nat 2)%nat → (j < Z.to_nat 2)%nat →
           ∃ f, evaluateSolution
                  (candidateOf (λ t k, Z.of_nat ((t + k) `mod` 2)) 3 t j)
                  [{| capacity := 1 |}; {| capacity := 1 |}]
                  [{| student1 := 0; student2 := 1 |}] = Some f
                ∧ globalBestFitness g ≤ f)
      ∧ (g = initialRegister
         ∨ ∃ t j, (t < Z.to_nat 2)%nat ∧ (j < Z.to_nat 2)%nat
                  ∧ evaluateSolution
                      (candidateOf (λ t k, Z.of_nat ((t + k) `mod` 2)) 3 t j)
                      [{| capacity := 1 |}; {| capacity := 1 |}]
                      [{| student1 := 0; student2 := 1 |}]
                    = Some (globalBestFitness g)
                  ∧ globalBestAssignment g
                    = candidateOf (λ t k, Z.of_nat ((t + k) `mod` 2)) 3 t j).
Proof.
  assert (Hr : 0 ≤ roomDistMax [{| capacity := 1 |}; {| capacity := 1 |}])
    by (vm_compute; discriminate).
  assert (Hp : pairsBelow 3 [{| student1 := 0; student2 := 1 |}]).
  { repeat constructor; simpl; lia. }
  split; [exact Hr|]. split; [exact Hp|].
  exact (runThreads_global_minimum _ _ 3 2 2 _ [1%nat; 0%nat] Hr ltac:(lia) Hp).
Defined.

(** X13.  The final fitness does not depend on the interleaving: two runs
    of the same threads on the same problem, under any two schedules, end
    with the same stored fitness. *)
Theorem runThreads_fitness_schedule_independent
    rooms incs ns iterations threadCount rngs schedule1 schedule2 :
  0 ≤ roomDistMax rooms → 0 ≤ ns → pairsBelow ns incs →
  ∃ ws1 g1 ws2 g2,
    runThreads rooms incs ns iterations threadCount rngs schedule1 = Some (ws1, g1)
    ∧ runThreads rooms incs ns iterations threadCount rngs schedule2 = Some (ws2, g2)
    ∧ globalBestFitness g1 = globalBestFitness g2.
Proof.
  intros Hr Hn Hincs.
  destruct (runThreads_minimum rooms incs ns iterations threadCount rngs schedule1
              Hr Hn Hincs) as (ws1 & g1 & Hrun1 & Hmax1 & Hle1 & Hmem1).
  destruct (runThreads_minimum rooms incs ns iterations threadCount rngs schedule2
              Hr Hn Hincs) as (ws2 & g2 & Hrun2 & Hmax2 & Hle2 & Hmem2).
  exists ws1, g1, ws2, g2. split_and!; try done.
  assert (Hhalf : ∀ g g' : Register,
    globalBestFitness g ≤ INT_MAX →
    (∀ t j, (t < Z.to_nat threadCount)%nat → (j < Z.to_nat iterations)%nat →
       ∃ f, evaluateSolution (candidateOf rngs ns t j) rooms incs = Some f
            ∧ globalBestFitness g ≤ f) →
    (g' = initialRegister
     ∨ ∃ t j, (t < Z.to_nat threadCount)%nat ∧ (j < Z.to_nat iterations)%nat
              ∧ evaluateSolution (candidateOf rngs ns t j) rooms incs
                = Some (globalBestFitness g')
              ∧ globalBestAssignment g' = candidateOf rngs ns t j) →
    globalBestFitness g ≤ globalBestFitness g').
  { intros g g' Hmax Hle [->|(t & j & Ht & Hj & Hf & _)]; [done|].
    destruct (Hle t j Ht Hj) as (f & Hf' & Hlef). rewrite Hf in Hf'.
    injection Hf' as <-. done. }
  apply Z.le_antisymm; by apply Hhalf.
Qed.

Lemma runThreads_fitness_schedule_independent_witness :
  0 ≤ roomDistMax [{| capacity := 1 |}; {| capacity := 1 |}]
  ∧ pairsBelow 3 [{| student1 := 0; student2 := 1 |}]
  ∧ ∃ ws1 g1 ws2 g2,
      runThreads [{| capacity := 1 |}; {| capacity := 1 |}]
        [{| student1 := 0; student2 := 1 |}] 3 2 2
        (λ t k, Z.of_nat ((t + k) `mod` 2)) [1%nat; 0%nat] = Some (ws1, g1)
      ∧ runThreads [{| capacity := 1 |}; {| capacity := 1 |}]
          [{| student1 := 0; student2 := 1 |}] 3 2 2
          (λ t k, Z.of_nat ((t + k) `mod` 2)) [0%nat; 0%nat; 1%nat] = Some (ws2, g2)
      ∧ globalBestFitness g1 = globalBestFitness g2.
Proof.
  assert (Hr : 0 ≤ roomDistMax [{| capacity := 1 |}; {| capacity := 1 |}])
    by (vm_compute; discriminate).
  assert (Hp : pairsBelow 3 [{| student1 := 0; student2 := 1 |}]).
  { repeat constructor; simpl; lia. }
  split; [exact Hr|]. split; [exact Hp|].
  exact (runThreads_fitness_schedule_independent _ _ 3 2 2 _
           [1%nat; 0%nat] [0%nat; 0%nat; 1%nat] Hr ltac:(lia) Hp).
Defined.

(** X14.  Where the random source of each thread keeps to the range of
    [roomDist], the best assignment a run leaves is the empty one of the
    initial register or a valid assignment: one entry for each student,
    each the index of a room. *)
Theorem runThreads_best_is_valid rooms incs ns iterations threadCount rngs schedule :
  rooms ≠ [] → Z.of_nat (length rooms) ≤ INT_MAX →
  0 ≤ ns → pairsBelow ns incs →
  (∀ t k, 0 ≤ rngs t k ≤ roomDistMax rooms) →
  ∃ ws g,
    runThreads rooms incs ns iterations threadCount rngs schedule = Some (ws, g)
    ∧ (g = initialRegister
       ∨ (length (globalBestAssignment g) = Z.to_nat ns
          ∧ validAssignment (globalBestAssignment g) rooms)).
Proof.
  intros Hne Hn Hns Hincs Hrngs.
  destruct (runThreads_minimum rooms incs ns iterations threadCount rngs schedule)
    as (ws & g & Hrun & _ & _ & Hmem); try done.
  { by apply roomDistMax_nonempty. }
  exists ws, g. split; [done|].
  destruct Hmem as [->|(t & j & _ & _ & _ & Ha)]; [by left|]. right.
  rewrite Ha. split; [apply candidateOf_length|].
  unfold validAssignment, candidateOf. apply Forall_fmap, Forall_forall.
  intros k _. simpl. specialize (Hrngs t k).
  rewrite roomDistMax_eq in Hrngs by done. lia.
Qed.

Lemma runThreads_best_is_valid_witness :
  pairsBelow 3 [{| student1 := 0; student2 := 1 |}]
  ∧ (∀ t k : nat, 0 ≤ Z.of_nat ((t + k) `mod` 2)
                  ≤ roomDistMax [{| capacity := 1 |}; {| capacity := 1 |}])
  ∧ ∃ ws g,
      runThreads [{| capacity := 1 |}; {| capacity := 1 |}]
        [{| student1 := 0; student2 := 1 |}] 3 2 2
        (λ t k, Z.of_nat ((t + k) `mod` 2)) [1%nat; 0%nat] = Some (ws, g)
      ∧ (g = initialRegister
         ∨ (length (globalBestAssignment g) = Z.to_nat 3
            ∧ validAssignment (globalBestAssignment g)
                [{| capacity := 1 |}; {| capacity := 1 |}])).
Proof.
  assert (Hp : pairsBelow 3 [{| student1 := 0; student2 := 1 |}]).
  { repeat constructor; simpl; lia. }
  assert (Hr : ∀ t k : nat, 0 ≤ Z.of_nat ((t + k) `mod` 2)
                            ≤ roomDistMax [{| capacity := 1 |}; {| capacity := 1 |}]).
  { intros t k. change (roomDistMax _) with 1.
    pose proof (Nat.mod_upper_bound (t + k) 2). lia. }
  split; [exact Hp|]. split; [exact Hr|].
  apply (runThreads_best_is_valid _ _ 3 2 2 (λ t k, Z.of_nat ((t + k) `mod` 2))
           [1%nat; 0%nat]); try done; vm_compute; discriminate.
Defined.

(** X15.  An iteration overwrites the whole buffer before it reads it:
    what it does to the register depends on the next [numStudents] values
    of the random source only, not on what the buffer held. *)
Theorem iteration_ignores_buffer rooms incs ns w w' g :
  sizedWorker ns w → sizedWorker ns w' →
  (∀ k, (k < Z.to_nat ns)%nat → rng w' (calls w' + k)%nat = rng w (calls w + k)%nat) →
  snd <$> iteration rooms incs ns w' g = snd <$> iteration rooms incs ns w g.
Proof.
  intros Hw Hw' Hrng. unfold iteration. rewrite !generate_all by done. simpl.
  assert (Heq : rng w' <$> seq (calls w') (Z.to_nat ns)
                = rng w <$> seq (calls w) (Z.to_nat ns)).
  { apply list_eq. intros k. rewrite !list_lookup_fmap.
    destruct (decide (k < Z.to_nat ns)%nat) as [Hk|Hk].
    - rewrite !lookup_seq_lt by done. simpl. f_equal. by apply Hrng.
    - by rewrite !lookup_seq_ge by lia. }
  rewrite Heq. by destruct (evaluateSolution _ rooms incs).
Qed.

Lemma iteration_ignores_buffer_witness :
  sizedWorker 3 {| rng := λ _, 0; calls := 0; currentAssignment := [0; 0; 0]; todo := 2 |}
  ∧ sizedWorker 3 {| rng := λ _, 0; calls := 3; currentAssignment := [9; 8; 7]; todo := 1 |}
  ∧ snd <$> iteration oneRoom onePair 3
              {| rng := λ _, 0; calls := 3; currentAssignment := [9; 8; 7]; todo := 1 |}
              initialRegister
    = snd <$> iteration oneRoom onePair 3
                {| rng := λ _, 0; calls := 0; currentAssignment := [0; 0; 0]; todo := 2 |}
                initialRegister.
Proof.
  assert (H1 : sizedWorker 3
    {| rng := λ _, 0; calls := 0; currentAssignment := [0; 0; 0]; todo := 2 |})
    by reflexivity.
  assert (H2 : sizedWorker 3
    {| rng := λ _, 0; calls := 3; currentAssignment := [9; 8; 7]; todo := 1 |})
    by reflexivity.
  split; [exact H1|]. split; [exact H2|].
  apply (iteration_ignores_buffer oneRoom onePair 3 _ _ initialRegister H1 H2).
  intros k _. reflexivity.
Defined.

(** X16.  [monteCarloThread] has a defined outcome exactly when there is a
    room, the number of students is not negative and, if it is to run any
    iteration, every pair names two students; with no iteration to run it
    returns the register as it was. *)
Theorem monteCarloThread_defined_iff iterations rooms incs ns draw g :
  (is_Some (monteCarloThread iterations rooms incs ns draw g)
   ↔ 0 ≤ roomDistMax rooms ∧ 0 ≤ ns ∧ (iterations ≤ 0 ∨ pairsBelow ns incs))
  ∧ (0 ≤ roomDistMax rooms → 0 ≤ ns → iterations ≤ 0 →
     monteCarloThread iterations rooms incs ns draw g = Some g).
Proof.
  split; [split|].
  - unfold monteCarloThread, newWorker. intros [g' Hg'].
    destruct (bool_decide (0 ≤ roomDistMax rooms)) eqn:Hr; simpl in Hg'; [|done].
    destruct (bool_decide (0 ≤ ns)) eqn:Hn; simpl in Hg'; [|done].
    apply bool_decide_eq_true in Hr, Hn. split_and!; try done.
    destruct (decide (iterations ≤ 0)) as [?|Hit]; [by left | right].
    destruct (Z.to_nat iterations) as [|n] eqn:Hnat; [lia|].
    simpl in Hg'.
    destruct (iteration rooms incs ns _ g) as [[w1 g1]|] eqn:Hi; simpl in Hg'; [|done].
    apply iteration_step in Hi as (f & Hf & _);
      [|unfold sizedWorker; simpl; by rewrite length_replicate].
    rewrite evaluateSolution_eq in Hf. case_decide as Hin; [|done].
    eapply Forall_impl; [exact Hin|]. intros inc [H1 H2].
    rewrite length_fmap, length_seq in H1, H2. lia.
  - intros (Hr & Hn & Hit). unfold monteCarloThread.
    rewrite newWorker_Some by done. simpl. apply fmap_is_Some.
    destruct Hit as [Hit|Hincs].
    + by rewrite Z2Nat.nonpos.
    + apply iterate_total; [|done].
      unfold sizedWorker. simpl. by rewrite length_replicate.
  - intros Hr Hn Hit. unfold monteCarloThread.
    rewrite newWorker_Some by done. simpl. by rewrite Z2Nat.nonpos.
Qed.

Lemma monteCarloThread_defined_iff_witness :
  (0 ≤ roomDistMax oneRoom ∧ 0 ≤ 3 ∧ (4 ≤ 0 ∨ pairsBelow 3 onePair))
  ∧ is_Some (monteCarloThread 4 oneRoom onePair 3 (λ _, 0) initialRegister)
  ∧ monteCarloThread 0 oneRoom onePair 3 (λ _, 0) initialRegister = Some initialRegister.
Proof.
  assert (H : 0 ≤ roomDistMax oneRoom ∧ 0 ≤ 3 ∧ (4 ≤ 0 ∨ pairsBelow 3 onePair)).
  { split_and!; [vm_compute; discriminate | lia |].
    right. repeat constructor; simpl; lia. }
  split; [exact H|]. split.
  - exact (proj2 (proj1 (monteCarloThread_defined_iff 4 oneRoom onePair 3 (λ _, 0)
                           initialRegister)) H).
  - apply (proj2 (monteCarloThread_defined_iff 0 oneRoom onePair 3 (λ _, 0)
                    initialRegister)); [vm_compute; discriminate | lia | lia].
Defined.

(** X17.  A run of one thread, under any schedule, leaves the register
    that [monteCarloThread] leaves when it runs alone on the same random
    source, and is undefined exactly when that one is. *)
Theorem runThreads_one_thread rooms incs ns iterations rngs schedule :
  snd <$> runThreads rooms incs ns iterations 1 rngs schedule
  = monteCarloThread iterations rooms incs ns (rngs O) initialRegister.
Proof.
  unfold runThreads, monteCarloThread, spawn.
  change (seq 0 (Z.to_nat 1)) with [O]. cbn [mapM].
  destruct (newWorker iterations rooms ns (rngs O)) as [w|]; [|done].
  change (snd <$> (runSchedule rooms incs ns schedule ([w], initialRegister)
                   ≫= joinAll rooms incs ns)
          = snd <$> iterate rooms incs ns (todo w) w initialRegister).
  rewrite runSchedule_single.
  by destruct (iterate rooms incs ns (todo w) w initialRegister) as [[w' g']|].
Qed.

(** ** The entry point *)

(** X18.  With a thread count of at least 1 (and its threads created),
    whatever the random sources and the interleaving, [main] runs without
    undefined behaviour and
    returns 0; its report has one row for each of the 100 students, the
    rooms of the best assignment, whose penalty is the fitness it prints,
    between 0 and 1165, and the thread count it was given. *)
Theorem main_exits_with_report argv1 rngs schedule :
  1 ≤ threadCountOf argv1 →
  ∃ r, main argv1 rngs schedule = Exit 0 r
       ∧ (studentRooms r).*1 = studentIndices numStudents
       ∧ evaluateSolution (studentRooms r).*2 mainRooms mainIncompatibilities
         = Some (bestFitness r)
       ∧ 0 ≤ bestFitness r ≤ 1165
       ∧ threadCountUsed r = threadCountOf argv1.
Proof.
  intros Htc.
  destruct mainRooms_facts as (Hne & Hn & Hcap & _).
  destruct mainIncompatibilities_facts as (Hincs & Hlen).
  assert (Hsize : 10 * numStudents + 5 * Z.of_nat (length mainIncompatibilities)
                  < INT_MAX) by (rewrite Hlen; vm_compute; reflexivity).
  assert (Hns : 0 ≤ numStudents) by (vm_compute; discriminate).
  assert (Hit : 1 ≤ iterationsPerThread) by (vm_compute; discriminate).
  destruct (runThreads_best mainRooms mainIncompatibilities numStudents
              iterationsPerThread (threadCountOf argv1) rngs schedule
              Hcap Hne Hn Hns Hincs Hsize Htc Hit)
    as (ws & g & t & j & Hrun & Hfit & Hf & Ha).
  assert (Hl : length (globalBestAssignment g) = Z.to_nat numStudents).
  { rewrite Ha. apply candidateOf_length. }
  eexists. unfold main, search. rewrite Hrun. simpl. rewrite report_Some by done.
  split; [reflexivity|]. cbn [studentRooms bestFitness threadCountUsed].
  assert (Hli : length (studentIndices numStudents) = Z.to_nat numStudents).
  { unfold studentIndices. by rewrite length_fmap, length_seq. }
  rewrite fst_zip, snd_zip by lia.
  rewrite Hlen in Hfit. split_and!; try done; unfold numStudents in *; lia.
Qed.

Lemma main_exits_with_report_witness :
  1 ≤ threadCountOf None
  ∧ ∃ r, main None (λ _ _, 0) [] = Exit 0 r
         ∧ (studentRooms r).*1 = studentIndices numStudents
         ∧ evaluateSolution (studentRooms r).*2 mainRooms mainIncompatibilities
           = Some (bestFitness r)
         ∧ 0 ≤ bestFitness r ≤ 1165
         ∧ threadCountUsed r = threadCountOf None.
Proof.
  assert (H : 1 ≤ threadCountOf None) by (simpl; lia).
  split; [exact H|].
  exact (main_exits_with_report None (λ _ _, 0) [] H).
Defined.

(** X19.  With a thread count that is zero or negative [main] starts no
    thread and reaches its report with the empty best assignment, where
    reading the room of student 0 is outside the vector: the behaviour is
    undefined for every such argument. *)
Theorem main_undefined_without_thread argv1 rngs schedule :
  threadCountOf argv1 ≤ 0 → main argv1 rngs schedule = Undefined.
Proof.
  intros Htc. unfold main, search, runThreads, spawn.
  rewrite Z2Nat.nonpos by done. simpl. by rewrite runSchedule_no_worker.
Qed.

Lemma main_undefined_without_thread_witness :
  threadCountOf (Some (-3)) ≤ 0 ∧ main (Some (-3)) (λ _ _, 0) [2%nat] = Undefined.
Proof.
  assert (H : threadCountOf (Some (-3)) ≤ 0) by (simpl; lia).
  split; [exact H|].
  exact (main_undefined_without_thread (Some (-3)) (λ _ _, 0) [2%nat] H).
Defined.

(** X20.  Where the random sources keep to the rooms 0 to 9 that
    [roomDist] offers, every room [main] reports for a student is one of
    these ten rooms. *)
Theorem main_reports_existing_rooms argv1 rngs schedule :
  1 ≤ threadCountOf argv1 →
  (∀ t k, 0 ≤ rngs t k ≤ roomDistMax mainRooms) →
  ∃ r, main argv1 rngs schedule = Exit 0 r
       ∧ length (studentRooms r) = 100%nat
       ∧ Forall (λ row, 0 ≤ row.2 < numRooms) (studentRooms r).
Proof.
  intros Htc Hrngs.
  destruct mainRooms_facts as (Hne & Hn & Hcap & Hmax).
  destruct mainIncompatibilities_facts as (Hincs & Hlen).
  assert (Hsize : 10 * numStudents + 5 * Z.of_nat (length mainIncompatibilities)
                  < INT_MAX) by (rewrite Hlen; vm_compute; reflexivity).
  assert (Hns : 0 ≤ numStudents) by (vm_compute; discriminate).
  assert (Hit : 1 ≤ iterationsPerThread) by (vm_compute; discriminate).
  destruct (runThreads_best mainRooms mainIncompatibilities numStudents
              iterationsPerThread (threadCountOf argv1) rngs schedule
              Hcap Hne Hn Hns Hincs Hsize Htc Hit)
    as (ws & g & t & j & Hrun & _ & _ & Ha).
  assert (Hl : length (globalBestAssignment g) = Z.to_nat numStudents).
  { rewrite Ha. apply candidateOf_length. }
  eexists. unfold main, search. rewrite Hrun. simpl. rewrite report_Some by done.
  split; [reflexivity|]. cbn [studentRooms].
  assert (Hli : length (studentIndices numStudents) = Z.to_nat numStudents).
  { unfold studentIndices. by rewrite length_fmap, length_seq. }
  split.
  - rewrite length_zip, Hl, Hli. reflexivity.
  - apply Forall_forall. intros [i room] Hrow. simpl.
    apply elem_of_zip_r in Hrow. simpl in Hrow. rewrite Ha in Hrow.
    unfold candidateOf in Hrow. apply list_elem_of_fmap in Hrow as (k & -> & _).
    specialize (Hrngs t k). rewrite Hmax in Hrngs. unfold numRooms. lia.
Qed.

Lemma main_reports_existing_rooms_witness :
  1 ≤ threadCountOf (Some 2)
  ∧ (∀ t k : nat, 0 ≤ Z.of_nat ((t + k) `mod` 10) ≤ roomDistMax mainRooms)
  ∧ ∃ r, main (Some 2) (λ t k, Z.of_nat ((t + k) `mod` 10)) [] = Exit 0 r
         ∧ length (studentRooms r) = 100%nat
         ∧ Forall (λ row, 0 ≤ row.2 < numRooms) (studentRooms r).
Proof.
  assert (H : 1 ≤ threadCountOf (Some 2)) by (simpl; lia).
  assert (Hr : ∀ t k : nat, 0 ≤ Z.of_nat ((t + k) `mod` 10) ≤ roomDistMax mainRooms).
  { intros t k. change (roomDistMax mainRooms) with 9.
    pose proof (Nat.mod_upper_bound (t + k) 10). lia. }
  split; [exact H|]. split; [exact Hr|].
  exact (main_reports_existing_rooms (Some 2) _ [] H Hr).
Defined.

(** X21.  More sampling never gives a worse result: with the same random
    sources, a run with at least as many threads and at least as many
    iterations for each ends with a fitness that is at most that of the
    smaller run, whatever the two interleavings. *)
Theorem runThreads_more_is_no_worse
    rooms incs ns iterations iterations' threadCount threadCount' rngs
    schedule schedule' :
  0 ≤ roomDistMax rooms → 0 ≤ ns → pairsBelow ns incs →
  iterations ≤ iterations' → threadCount ≤ threadCount' →
  ∃ ws g ws' g',
    runThreads rooms incs ns iterations threadCount rngs schedule = Some (ws, g)
    ∧ runThreads rooms incs ns iterations' threadCount' rngs schedule' = Some (ws', g')
    ∧ globalBestFitness g' ≤ globalBestFitness g.
Proof.
  intros Hr Hn Hincs Hit Htc.
  destruct (runThreads_minimum rooms incs ns iterations threadCount rngs schedule
              Hr Hn Hincs) as (ws & g & Hrun & _ & _ & Hmem).
  destruct (runThreads_minimum rooms incs ns iterations' threadCount' rngs schedule'
              Hr Hn Hincs) as (ws' & g' & Hrun' & Hmax' & Hle' & _).
  exists ws, g, ws', g'. split_and!; try done.
  destruct Hmem as [->|(t & j & Ht & Hj & Hf & _)]; [done|].
  destruct (Hle' t j ltac:(lia) ltac:(lia)) as (f & Hf' & Hlef).
  rewrite Hf in Hf'. injection Hf' as <-. done.
Qed.

Lemma runThreads_more_is_no_worse_witness :
  0 ≤ roomDistMax [{| capacity := 1 |}; {| capacity := 1 |}]
  ∧ pairsBelow 3 [{| student1 := 0; student2 := 1 |}]
  ∧ ∃ ws g ws' g',
      runThreads [{| capacity := 1 |}; {| capacity := 1 |}]
        [{| student1 := 0; student2 := 1 |}] 3 1 1
        (λ t k, Z.of_nat ((t + k) `mod` 2)) [] = Some (ws, g)
      ∧ runThreads [{| capacity := 1 |}; {| capacity := 1 |}]
          [{| student1 := 0; student2 := 1 |}] 3 2 2
          (λ t k, Z.of_nat ((t + k) `mod` 2)) [1%nat; 0%nat] = Some (ws', g')
      ∧ globalBestFitness g' ≤ globalBestFitness g.
Proof.
  assert (Hr : 0 ≤ roomDistMax [{| capacity := 1 |}; {| capacity := 1 |}])
    by (vm_compute; discriminate).
  assert (Hp : pairsBelow 3 [{| student1 := 0; student2 := 1 |}]).
  { repeat constructor; simpl; lia. }
  split; [exact Hr|]. split; [exact Hp|].
  exact (runThreads_more_is_no_worse _ _ 3 1 2 1 2 _ [] [1%nat; 0%nat]
           Hr ltac:(lia) Hp ltac:(lia) ltac:(lia)).
Defined.
